(** * example05/main.c: sizing of a warp-aligned buffer for a real FFT

    A shallow embedding of [roundUpToNearest] and of the part of [main]
    that sizes, allocates and fills the buffer handed to clFFT, followed by
    the properties of the padded length.

    C integers are mathematical integers of [Z] together with the range of
    their type: [unsigned int] arithmetic wraps modulo 2^32, [int]
    arithmetic that leaves the range of [int] is undefined, and so is a
    remainder by zero.  Both are outcomes of a computation here, next to a
    normal return. *)

From Stdlib Require Import ZArith Lia Znumtheory.
From stdpp Require Import base numbers list.

Local Open Scope Z_scope.

(** ** Memory *)

(** One [double] of a buffer.  A freshly allocated one has no value yet;
    the only doubles the program stores before the transform are converted
    from an [int], and [Num v] is the double equal to the integer [v]. *)
Inductive cell : Type :=
  | Indeterminate
  | Num (v : Z).

(** The buffers of the program: the blocks [malloc] returned on the host and
    the buffers created on the device, each an array of doubles.  A pointer
    or a [cl_mem] handle is the position of its block. *)
Record memory : Type := Memory {
  host : list (list cell);
  device : list (list cell)
}.

Definition initial_memory : memory := Memory [] [].

(** ** Computations *)

Inductive fault : Type :=
  | DivisionByZero
  | SignedOverflow
  | OutOfBounds.

Inductive outcome (A : Type) : Type :=
  | Returns (v : A)
  | Undefined (f : fault).

Arguments Returns {A} v.
Arguments Undefined {A} f.

(** A piece of C code: run in a memory, it returns a value and the memory
    it leaves, or its behaviour is undefined. *)
Definition comp (A : Type) : Type := memory -> outcome (A * memory).

#[global] Instance comp_ret : MRet comp :=
  fun A (v : A) m => Returns (v, m).

#[global] Instance comp_bind : MBind comp :=
  fun A B (k : A -> comp B) (c : comp A) m =>
    match c m with
    | Returns (v, m') => k v m'
    | Undefined f => Undefined f
    end.

Definition undefined {A : Type} (f : fault) : comp A :=
  fun _ => Undefined f.

(** ** C integer arithmetic *)

Definition INT_MIN : Z := -2147483648.
Definition INT_MAX : Z := 2147483647.
Definition UINT_MAX : Z := 4294967295.

Definition in_int (z : Z) : bool := (INT_MIN <=? z) && (z <=? INT_MAX).

(** The result of an [int] operation, when the type can hold it. *)
Definition int_result (z : Z) : comp Z :=
  if in_int z then mret z else undefined SignedOverflow.

Definition int_add (a b : Z) : comp Z := int_result (a + b).
Definition int_sub (a b : Z) : comp Z := int_result (a - b).
Definition int_mul (a b : Z) : comp Z := int_result (a * b).

(** [a % b] on [int]: the remainder of the division truncated towards zero,
    with the sign of [a]. *)
Definition int_rem (a b : Z) : comp Z :=
  if b =? 0 then undefined DivisionByZero
  else if (a =? INT_MIN) && (b =? -1) then undefined SignedOverflow
  else mret (Z.rem a b).

Definition uint_wrap (z : Z) : Z := z mod (UINT_MAX + 1).

Definition uint_add (a b : Z) : Z := uint_wrap (a + b).
Definition uint_div (a b : Z) : Z := a / b.

(** Conversions between [unsigned int] and [int] keep the value modulo
    2^32. *)
Definition uint_of_int (i : Z) : Z := uint_wrap i.
Definition int_of_uint (u : Z) : Z :=
  if u <=? INT_MAX then u else u - (UINT_MAX + 1).

(** ** roundUpToNearest *)

(** [int roundUpToNearest(int x, int n)], main.c lines 20-27. *)
Definition roundUpToNearest (x n : Z) : comp Z :=
  x_rem ← int_rem x n;
  if x_rem =? 0 then mret x
  else d ← int_sub n x_rem; int_add x d.

(** ** The padded length *)

(** The initialiser of [N_pad], main.c line 49:
    [unsigned int N_pad = 2*roundUpToNearest( (N+2)/2, 32 );]
    as a function of the [unsigned int N] and of the group width, which the
    program fixes to 32.  [(N+2)/2] is unsigned arithmetic, converted to the
    [int] parameter; the product is [int] arithmetic, converted back. *)
Definition paddedLength (N groupWidth : Z) : comp Z :=
  r ← roundUpToNearest (int_of_uint (uint_div (uint_add N 2) 2)) groupWidth;
  p ← int_mul 2 r;
  mret (uint_of_int p).

(** ** The set-up of the buffer in main *)

(** What the C implementation fixes and main.c relies on: the size of a
    [double] in bytes and the largest [size_t]. *)
Record platform : Type := Platform {
  sizeof_double : Z;
  SIZE_MAX : Z
}.

(** A [double] of 8 bytes and a [size_t] of 64 bits. *)
Definition lp64 : platform := Platform 8 18446744073709551615.

Definition size_wrap (p : platform) (z : Z) : Z := z mod (SIZE_MAX p + 1).
Definition size_mul (p : platform) (a b : Z) : Z := size_wrap p (a * b).

(** The number of doubles that [bytes] bytes hold. *)
Definition doubles (p : platform) (bytes : Z) : nat :=
  Z.to_nat (bytes / sizeof_double p).

(** [malloc(bytes)], used as an array of doubles: a new block, whose
    contents are indeterminate.  The model is of an allocation that
    succeeds; main.c does not test the pointer. *)
Definition malloc (p : platform) (bytes : Z) : comp nat :=
  fun m =>
    Returns (length (host m),
             Memory (host m ++ [replicate (doubles p bytes) Indeterminate])
                    (device m)).

(** [ptr[i] = v] on a host block; outside the block it is undefined. *)
Definition store (ptr : nat) (i : Z) (v : cell) : comp unit :=
  fun m =>
    match host m !! ptr with
    | Some blk =>
        if (0 <=? i) && (i <? Z.of_nat (length blk))
        then Returns (tt, Memory (<[ptr := <[Z.to_nat i := v]> blk]> (host m))
                                 (device m))
        else Undefined OutOfBounds
    | None => Undefined OutOfBounds
    end.

(** [for (i = first; i < first + count; i++) body], whose variable takes
    the values of [range] in this order.  The variable is a mathematical
    integer: this is the loop of the source as long as its [int] variable
    stays in [int], that is for values up to [INT_MAX]. *)
Fixpoint for_each (range : list Z) (body : Z -> comp unit) : comp unit :=
  match range with
  | [] => mret tt
  | i :: rest => _ ← body i; for_each rest body
  end.

(** [clCreateBuffer(context, CL_MEM_READ_WRITE, bytes, NULL, NULL)]: a new
    device buffer, which OpenCL does not initialise. *)
Definition clCreateBuffer (p : platform) (bytes : Z) : comp nat :=
  fun m =>
    Returns (length (device m),
             Memory (host m)
                    (device m ++ [replicate (doubles p bytes) Indeterminate])).

(** [clEnqueueWriteBuffer(queue, buf, CL_TRUE, 0, bytes, ptr, ...)]: a
    blocking copy of the first [bytes] bytes of the host block into the
    device buffer. *)
Definition clEnqueueWriteBuffer (p : platform) (buf : nat) (bytes : Z)
    (ptr : nat) : comp unit :=
  fun m =>
    match device m !! buf, host m !! ptr with
    | Some d, Some h =>
        let n := doubles p bytes in
        if bool_decide (n ≤ length d)%nat && bool_decide (n ≤ length h)%nat
        then Returns (tt, Memory (host m)
                                 (<[buf := take n h ++ drop n d]> (device m)))
        else Undefined OutOfBounds
    | _, _ => Undefined OutOfBounds
    end.

Module Main.

(** The variables of [main] that the buffer and the dispatch depend on. *)
Record locals : Type := Locals {
  N : Z;
  N_pad : Z;
  N_bytes : Z;
  h_v : nat;
  globalSize : Z;
  localSize : Z;
  d_v : nat
}.

End Main.

(** [main], lines 48 to 108: from the sizes to the write of the host buffer
    to the device, the last statement that touches the buffer before the
    forward transform of line 128.  The calls that set up the platform, the
    queue, the program and the plans do not touch the buffers and are left
    out. *)
Definition main_setup (p : platform) : comp Main.locals :=
  let N := 128 in
  N_pad ← paddedLength N 32;
  let N_bytes := size_mul p (size_wrap p N_pad) (sizeof_double p) in
  h_v ← malloc p N_bytes;
  _ ← for_each (seqZ 0 N) (fun i => store h_v i (Num i));
  let globalSize := size_wrap p (uint_div N_pad 2) in
  let localSize := size_wrap p 32 in
  d_v ← clCreateBuffer p N_bytes;
  _ ← clEnqueueWriteBuffer p d_v N_bytes h_v;
  mret (Main.Locals N N_pad N_bytes h_v globalSize localSize d_v).

(** The buffer that [main] is documented to build: the signal 0, 1, ...,
    N-1 followed by zeros up to the padded length. *)
Definition zero_padded_signal (N N_pad : Z) : list cell :=
  (Num <$> seqZ 0 N) ++ replicate (Z.to_nat (N_pad - N)) (Num 0).

(** The buffer that [main] builds. *)
Definition unpadded_signal (N N_pad : Z) : list cell :=
  (Num <$> seqZ 0 N) ++ replicate (Z.to_nat (N_pad - N)) Indeterminate.

(** ** The padded length in words *)

(** Rounding up to a multiple, on unbounded integers: [half] is unchanged
    if [half mod groupWidth] is 0, otherwise [groupWidth - (half mod
    groupWidth)] is added. *)
Definition round_up (half groupWidth : Z) : Z :=
  if half mod groupWidth =? 0 then half
  else half + (groupWidth - half mod groupWidth).

(** [ceil(z / 2)]. *)
Definition ceil_half (z : Z) : Z := (z + 1) / 2.

(** The three steps as the specification words them: the half is
    [ceil((N + 2) / 2)]. *)
Definition paddedLength_spec (N groupWidth : Z) : Z :=
  let half := ceil_half (N + 2) in
  let roundedHalf := round_up half groupWidth in
  2 * roundedHalf.

(** The three steps with the half that C's division computes, [(N + 2) / 2]
    rounded down, which is [N / 2 + 1]. *)
Definition paddedLength_steps (N groupWidth : Z) : Z :=
  let half := (N + 2) / 2 in
  let roundedHalf := round_up half groupWidth in
  2 * roundedHalf.

(** [r] is the least multiple of [n] that is at least [x]. *)
Definition least_multiple_from (n x r : Z) : Prop :=
  (n | r) /\ x <= r /\ forall k, (n | k) -> x <= k -> r <= k.

(** ** The properties, as predicates on the inputs *)

Definition rounds_to_least_multiple (x n : Z) : Prop :=
  forall m, exists r,
    roundUpToNearest x n m = Returns (r, m) /\
    least_multiple_from n x r /\
    (r = x <-> (n | x)).

Definition holds_real_fft (N groupWidth : Z) : Prop :=
  forall m, exists r,
    paddedLength N groupWidth m = Returns (r, m) /\ N + 2 <= r.

Definition follows_spec_steps (N groupWidth : Z) : Prop :=
  forall m,
    paddedLength N groupWidth m = Returns (paddedLength_spec N groupWidth, m).

Definition even_and_aligned (N groupWidth : Z) : Prop :=
  forall m, exists r,
    paddedLength N groupWidth m = Returns (r, m) /\
    r mod 2 = 0 /\ (r / 2) mod groupWidth = 0.

Definition adds_no_padding (N groupWidth : Z) : Prop :=
  forall m, paddedLength N groupWidth m = Returns (N + 2, m).

Definition returns_no_result (N groupWidth : Z) : Prop :=
  forall m r m', paddedLength N groupWidth m <> Returns (r, m').

(** A computation that returns one value and hands the memory back, or is
    undefined, the same way in every memory. *)
Definition pure {A : Type} (c : comp A) : Prop :=
  (exists v, forall m, c m = Returns (v, m)) \/
  (exists f, forall m, c m = Undefined f).

(** A computation that has one outcome whatever the memory, and that
    leaves the memory as it found it. *)
Definition state_independent {A : Type} (c : comp A) : Prop :=
  forall m1 m2,
    match c m1, c m2 with
    | Returns (v1, m1'), Returns (v2, m2') => v1 = v2 /\ m1' = m1 /\ m2' = m2
    | Undefined f1, Undefined f2 => f1 = f2
    | _, _ => False
    end.

(** ** The kernel *)

(** The kernel works on the one buffer it is handed, which is passed along:
    its steps return a value or are undefined, without the memory of the
    host program. *)
#[global] Instance outcome_ret : MRet outcome :=
  fun A (v : A) => Returns v.

#[global] Instance outcome_bind : MBind outcome :=
  fun A B (k : A -> outcome B) (o : outcome A) =>
    match o with
    | Returns v => k v
    | Undefined f => Undefined f
    end.

(** The value of an [int] expression of the kernel. *)
Definition int_value (z : Z) : outcome Z :=
  if in_int z then Returns z else Undefined SignedOverflow.

(** [get_global_id(0)], a [size_t], assigned to an [int]: the value modulo
    2^32. *)
Definition int_of_size_t (z : Z) : Z := int_of_uint (uint_wrap z).

Section Kernel.

(** The doubles of the buffer and the product [k * d] of an [int] constant
    by a double.  After the transform the doubles are no integers, and the
    kernel is modelled for any doubles and any product. *)
Context {D : Type}.
Variable times : Z -> D -> D.

(** [v[i]] read and [v[i] = d] in global memory; outside the buffer they
    are undefined. *)
Definition global_load (v : list D) (i : Z) : outcome D :=
  if (0 <=? i) && (i <? Z.of_nat (length v))
  then match v !! Z.to_nat i with
       | Some d => Returns d
       | None => Undefined OutOfBounds
       end
  else Undefined OutOfBounds.

Definition global_store (v : list D) (i : Z) (d : D) : outcome (list D) :=
  if (0 <=? i) && (i <? Z.of_nat (length v))
  then Returns (<[Z.to_nat i := d]> v)
  else Undefined OutOfBounds.

(** [__kernel void mult(__global double *v)], main.c lines 8-16, run by the
    work item whose global id is [gid]. *)
Definition mult (v : list D) (gid : Z) : outcome (list D) :=
  let id := int_of_size_t gid in
  v_re ← int_value (2 * id);
  v_im ← int_value (v_re + 1);
  a ← global_load v v_re;
  v ← global_store v v_re (times 2 a);
  b ← global_load v v_im;
  global_store v v_im (times 4 b).

(** The work items of [order], one after the other. *)
Fixpoint run_mult (order : list Z) (v : list D) : outcome (list D) :=
  match order with
  | [] => Returns v
  | gid :: rest => v' ← mult v gid; run_mult rest v'
  end.

(** [clEnqueueNDRangeKernel(queue, k_mult, 1, NULL, &globalSize, &localSize,
    ...)], line 131: one work item for each global id below [globalSize],
    here in the order of the ids. *)
Definition clEnqueueNDRangeKernel (globalSize : Z) (v : list D)
    : outcome (list D) :=
  run_mult (seqZ 0 globalSize) v.

(** The factor of position [j]: 2 for a real part, 4 for an imaginary
    part. *)
Definition factor (j : nat) : Z := if Nat.even j then 2 else 4.

(** The buffer with the pairs of the work items [ids] multiplied by their
    factors. *)
Definition scaled_by (ids : list Z) (v : list D) : list D :=
  imap (fun j d =>
          if bool_decide (Z.of_nat j / 2 ∈ ids) then times (factor j) d
          else d) v.

(** The buffer with every double multiplied by its factor. *)
Definition scaled (v : list D) : list D :=
  imap (fun j d => times (factor j) d) v.

End Kernel.

(** * Proofs *)

(** ** The monad and the integer operations *)

Lemma bind_returns {A B : Type} (c : comp A) (k : A -> comp B) v m m' :
  c m = Returns (v, m') -> (c ≫= k) m = k v m'.
Proof. intros H. unfold mbind, comp_bind. rewrite H. reflexivity. Qed.

Lemma bind_undefined {A B : Type} (c : comp A) (k : A -> comp B) f m :
  c m = Undefined f -> (c ≫= k) m = Undefined f.
Proof. intros H. unfold mbind, comp_bind. rewrite H. reflexivity. Qed.

Lemma in_int_true z : INT_MIN <= z <= INT_MAX -> in_int z = true.
Proof. unfold in_int. intros H. apply andb_true_iff. lia. Qed.

Lemma in_int_false z : z < INT_MIN \/ INT_MAX < z -> in_int z = false.
Proof. unfold in_int. intros H. apply andb_false_iff. lia. Qed.

Lemma int_result_returns z m :
  INT_MIN <= z <= INT_MAX -> int_result z m = Returns (z, m).
Proof. intros H. unfold int_result. rewrite in_int_true by exact H. reflexivity. Qed.

Lemma int_result_overflow z m :
  z < INT_MIN \/ INT_MAX < z -> int_result z m = Undefined SignedOverflow.
Proof. intros H. unfold int_result. rewrite in_int_false by exact H. reflexivity. Qed.

Lemma int_rem_returns a b m :
  0 <= a -> b <> 0 -> int_rem a b m = Returns (Z.rem a b, m).
Proof.
  intros Ha Hb. unfold int_rem.
  destruct (Z.eqb_spec b 0) as [->|_]; [contradiction|].
  destruct (Z.eqb_spec a INT_MIN) as [->|_]; [unfold INT_MIN in Ha; lia|].
  reflexivity.
Qed.

Lemma int_rem_zero a m : int_rem a 0 m = Undefined DivisionByZero.
Proof. reflexivity. Qed.

(** ** Rounding up on unbounded integers *)

Section RoundUp.

Variables x n : Z.
Hypothesis n_pos : 0 < n.

Lemma round_up_eq : round_up x n = x + (n - x mod n) mod n.
Proof.
  unfold round_up. pose proof (Z.mod_pos_bound x n n_pos) as Hb.
  destruct (Z.eqb_spec (x mod n) 0) as [E|E].
  - rewrite E, Z.sub_0_r, Z.mod_same by lia. lia.
  - rewrite (Z.mod_small (n - x mod n) n) by lia. reflexivity.
Qed.

Lemma round_up_multiple : (n | round_up x n).
Proof.
  unfold round_up. pose proof (Z.div_mod x n ltac:(lia)) as Hd.
  destruct (Z.eqb_spec (x mod n) 0) as [E|E].
  - exists (x / n). lia.
  - exists (x / n + 1). lia.
Qed.

Lemma round_up_bounds : x <= round_up x n < x + n.
Proof.
  unfold round_up. pose proof (Z.mod_pos_bound x n n_pos) as Hb.
  destruct (Z.eqb_spec (x mod n) 0); lia.
Qed.

Lemma round_up_least k : (n | k) -> x <= k -> round_up x n <= k.
Proof.
  intros [q ->] Hx. destruct round_up_multiple as [q' Hq'].
  pose proof round_up_bounds as Hb. rewrite Hq' in *.
  assert (q' < q + 1) by nia. nia.
Qed.

Lemma round_up_fixed : round_up x n = x <-> (n | x).
Proof.
  split.
  - intros <-. apply round_up_multiple.
  - intros Hd. pose proof round_up_bounds as Hb.
    pose proof (round_up_least x Hd ltac:(lia)). lia.
Qed.

Lemma round_up_is_least : least_multiple_from n x (round_up x n).
Proof.
  split; [apply round_up_multiple|]. split; [apply round_up_bounds|].
  apply round_up_least.
Qed.

End RoundUp.

Lemma least_multiple_unique n x r r' :
  least_multiple_from n x r -> least_multiple_from n x r' -> r = r'.
Proof.
  intros (D & L & M) (D' & L' & M').
  pose proof (M r' D' L'). pose proof (M' r D L). lia.
Qed.

(** ** roundUpToNearest and the padded length on the machine *)

(** On a non-negative [x] and a positive [n], [roundUpToNearest] computes
    [round_up x n] in [int] arithmetic: the only operation that can leave
    the type is the last addition. *)
Lemma roundUpToNearest_run x n m :
  0 <= x <= INT_MAX -> 0 < n <= INT_MAX ->
  roundUpToNearest x n m = int_result (round_up x n) m.
Proof.
  intros Hx Hn. unfold roundUpToNearest, round_up.
  rewrite (bind_returns _ _ _ _ _ (int_rem_returns x n m ltac:(lia) ltac:(lia))).
  rewrite Z.rem_mod_nonneg by lia.
  pose proof (Z.mod_pos_bound x n ltac:(lia)) as Hb.
  destruct (Z.eqb_spec (x mod n) 0) as [E|E].
  - symmetry. apply int_result_returns. unfold INT_MIN. lia.
  - unfold int_sub.
    rewrite (bind_returns _ _ (n - x mod n) m m);
      [reflexivity | apply int_result_returns; unfold INT_MIN; lia].
Qed.

(** The argument that line 49 passes: the half of [N + 2], when [N + 2]
    does not wrap. *)
Lemma half_argument N :
  0 <= N -> N + 2 <= UINT_MAX ->
  int_of_uint (uint_div (uint_add N 2) 2) = (N + 2) / 2.
Proof.
  intros H0 H1. unfold uint_div, uint_add, uint_wrap, int_of_uint in *.
  unfold UINT_MAX, INT_MAX in *.
  rewrite Z.mod_small by lia.
  pose proof (Z.div_mod (N + 2) 2 ltac:(lia)).
  pose proof (Z.mod_pos_bound (N + 2) 2 ltac:(lia)).
  destruct (Z.leb_spec ((N + 2) / 2) 2147483647); [reflexivity|lia].
Qed.

Lemma half_bounds N : 0 <= N -> N + 1 <= 2 * ((N + 2) / 2) <= N + 2.
Proof.
  intros H. pose proof (Z.div_mod (N + 2) 2 ltac:(lia)).
  pose proof (Z.mod_pos_bound (N + 2) 2 ltac:(lia)). lia.
Qed.

(** When the padded length fits an [int], the machine computes the three
    steps without leaving its types. *)
Lemma paddedLength_run N groupWidth m :
  0 <= N -> 0 < groupWidth <= INT_MAX ->
  paddedLength_steps N groupWidth <= INT_MAX ->
  paddedLength N groupWidth m = Returns (paddedLength_steps N groupWidth, m).
Proof.
  intros HN Hg Hfit. unfold paddedLength_steps in *. cbv zeta in *.
  pose proof (half_bounds N HN) as Hh.
  pose proof (round_up_bounds ((N + 2) / 2) groupWidth ltac:(lia)) as Hr.
  unfold paddedLength. unfold INT_MAX in *.
  rewrite half_argument by (unfold UINT_MAX; lia).
  assert (Hrun : roundUpToNearest ((N + 2) / 2) groupWidth m =
                 Returns (round_up ((N + 2) / 2) groupWidth, m)).
  { rewrite roundUpToNearest_run by (unfold INT_MAX; lia).
    apply int_result_returns. unfold INT_MIN, INT_MAX. lia. }
  rewrite (bind_returns _ _ _ _ _ Hrun).
  unfold int_mul.
  rewrite (bind_returns _ _ (2 * round_up ((N + 2) / 2) groupWidth) m m)
    by (apply int_result_returns; unfold INT_MIN, INT_MAX; lia).
  unfold mret, comp_ret, uint_of_int, uint_wrap, UINT_MAX.
  rewrite Z.mod_small by lia. reflexivity.
Qed.

(** ** Computations that do not touch the memory *)

Lemma pure_ret {A : Type} (v : A) : pure (mret v).
Proof. left. exists v. reflexivity. Qed.

Lemma pure_undefined {A : Type} (f : fault) : pure (@undefined A f).
Proof. right. exists f. reflexivity. Qed.

Lemma pure_bind {A B : Type} (c : comp A) (k : A -> comp B) :
  pure c -> (forall v, pure (k v)) -> pure (c ≫= k).
Proof.
  intros [[v Hc]|[f Hc]] Hk.
  - destruct (Hk v) as [[w Hw]|[f Hf]].
    + left. exists w. intros m. rewrite (bind_returns _ _ _ _ _ (Hc m)). apply Hw.
    + right. exists f. intros m. rewrite (bind_returns _ _ _ _ _ (Hc m)). apply Hf.
  - right. exists f. intros m. apply bind_undefined, Hc.
Qed.

Lemma pure_int_result z : pure (int_result z).
Proof. unfold int_result. destruct (in_int z); [apply pure_ret|apply pure_undefined]. Qed.

Lemma pure_int_rem a b : pure (int_rem a b).
Proof.
  unfold int_rem. destruct (b =? 0); [apply pure_undefined|].
  destruct ((a =? INT_MIN) && (b =? -1)); [apply pure_undefined|apply pure_ret].
Qed.

Lemma pure_roundUpToNearest x n : pure (roundUpToNearest x n).
Proof.
  unfold roundUpToNearest. apply pure_bind; [apply pure_int_rem|].
  intros x_rem. destruct (x_rem =? 0); [apply pure_ret|].
  apply pure_bind; [apply pure_int_result|]. intros d. apply pure_int_result.
Qed.

Lemma pure_paddedLength N groupWidth : pure (paddedLength N groupWidth).
Proof.
  unfold paddedLength. apply pure_bind; [apply pure_roundUpToNearest|].
  intros r. apply pure_bind; [apply pure_int_result|].
  intros p. apply pure_ret.
Qed.

Lemma pure_state_independent {A : Type} (c : comp A) :
  pure c -> state_independent c.
Proof.
  intros [[v Hc]|[f Hc]] m1 m2; rewrite !Hc; auto.
Qed.

(** [malloc] is not such a computation: it leaves a memory with one more
    block. *)
Lemma malloc_not_state_independent p bytes :
  ~ state_independent (malloc p bytes).
Proof.
  intros H. specialize (H initial_memory initial_memory).
  cbn in H. destruct H as (_ & H & _). discriminate H.
Qed.

(** ** The run of the set-up *)

Lemma paddedLength_128 m : paddedLength 128 32 m = Returns (192, m).
Proof. reflexivity. Qed.

Section Setup.

Variable p : platform.
Hypothesis double_pos : 0 < sizeof_double p.
Hypothesis bytes_fit : 192 * sizeof_double p <= SIZE_MAX p.

Lemma size_wrap_small z : 0 <= z <= 192 -> size_wrap p z = z.
Proof. intros H. unfold size_wrap. apply Z.mod_small. nia. Qed.

Lemma N_bytes_192 :
  size_mul p (size_wrap p 192) (sizeof_double p) = 192 * sizeof_double p.
Proof.
  rewrite size_wrap_small by lia. unfold size_mul, size_wrap.
  apply Z.mod_small. lia.
Qed.

Lemma doubles_192 : doubles p (192 * sizeof_double p) = 192%nat.
Proof. unfold doubles. rewrite Z.div_mul by lia. reflexivity. Qed.

(** [main] reaches the forward transform with these variables and with one
    host block and one device buffer, both holding the signal followed by
    doubles that were never written. *)
Lemma main_setup_run :
  main_setup p initial_memory =
  Returns (Main.Locals 128 192 (192 * sizeof_double p) 0 96 32 0,
           Memory [unpadded_signal 128 192] [unpadded_signal 128 192]).
Proof.
  unfold main_setup. cbv zeta.
  rewrite (bind_returns _ _ _ _ _ (paddedLength_128 initial_memory)).
  cbv beta. rewrite N_bytes_192.
  change (uint_div 192 2) with 96. rewrite !size_wrap_small by lia.
  unfold malloc, clCreateBuffer, clEnqueueWriteBuffer.
  rewrite doubles_192.
  generalize (192 * sizeof_double p). intros bytes.
  vm_compute. reflexivity.
Qed.

End Setup.

(** * Properties of the rounding and of the padded length *)

(** Closes a goal on closed terms: conjunctions of comparisons and
    divisibilities by constants. *)
Ltac closed_goal :=
  repeat match goal with
         | |- _ /\ _ => split
         | |- (_ | _) =>
             apply Z.mod_divide; vm_compute; first [reflexivity | discriminate]
         | |- _ => vm_compute; first [reflexivity | discriminate]
         end.

(** ** roundUpToNearest *)

(** C10 (amended): for every non-negative [x] and positive [n] such that
    some multiple of [n] lies between [x] and [INT_MAX], [roundUpToNearest]
    returns the least multiple of [n] that is greater than or equal to [x],
    and returns [x] itself exactly when [x] is a multiple of [n]; when no
    multiple of [n] lies between [x] and [INT_MAX], its last addition
    overflows [int]. *)
Theorem roundUpToNearest_least_multiple x n :
  0 <= x <= INT_MAX -> 0 < n <= INT_MAX ->
  ((exists k, (n | k) /\ x <= k <= INT_MAX) -> rounds_to_least_multiple x n) /\
  (~ (exists k, (n | k) /\ x <= k <= INT_MAX) ->
   forall m, roundUpToNearest x n m = Undefined SignedOverflow).
Proof.
  intros Hx Hn.
  pose proof (round_up_bounds x n ltac:(lia)) as Hb. split.
  - intros (k & Hk & Hxk) m. exists (round_up x n).
    pose proof (round_up_least x n ltac:(lia) k Hk ltac:(lia)) as Hl.
    split; [|split].
    + rewrite roundUpToNearest_run by assumption.
      apply int_result_returns. unfold INT_MIN. lia.
    + apply round_up_is_least. lia.
    + apply round_up_fixed. lia.
  - intros Hno m. rewrite roundUpToNearest_run by assumption.
    apply int_result_overflow. right.
    destruct (Z.le_gt_cases (round_up x n) INT_MAX) as [Hle|Hgt]; [|lia].
    exfalso. apply Hno. exists (round_up x n).
    split; [apply round_up_multiple; lia | lia].
Qed.

Lemma roundUpToNearest_least_multiple_witness :
  (0 <= 65 <= INT_MAX /\ 0 < 32 <= INT_MAX /\
   exists k, (32 | k) /\ 65 <= k <= INT_MAX) /\
  rounds_to_least_multiple 65 32.
Proof.
  assert (Hx : 0 <= 65 <= INT_MAX) by closed_goal.
  assert (Hn : 0 < 32 <= INT_MAX) by closed_goal.
  assert (Hk : exists k, (32 | k) /\ 65 <= k <= INT_MAX)
    by (exists 96; closed_goal).
  split; [auto|].
  exact (proj1 (roundUpToNearest_least_multiple 65 32 Hx Hn) Hk).
Defined.

(** C10 as stated fails at [x = 2147483646], [n = 32]: the least multiple
    of 32 from there on is 2^31, which [int] cannot hold. *)
Lemma roundUpToNearest_overflow_counterexample :
  0 <= 2147483646 <= INT_MAX /\ 0 < 32 <= INT_MAX /\
  roundUpToNearest 2147483646 32 initial_memory = Undefined SignedOverflow /\
  ~ rounds_to_least_multiple 2147483646 32.
Proof.
  split; [closed_goal|]. split; [closed_goal|]. split; [reflexivity|].
  intros H. destruct (H initial_memory) as (r & Hr & _).
  vm_compute in Hr. discriminate Hr.
Qed.

(** ** The padded length *)

(** The padded length reaches [N + 2] unless [N + 1] is a multiple of
    twice the group width: then the half [(N + 2) / 2] of the odd [N + 2]
    is already aligned and nothing is added to it. *)
Lemma paddedLength_steps_reach N groupWidth :
  0 <= N -> 0 < groupWidth ->
  N + 2 <= paddedLength_steps N groupWidth <-> ~ (2 * groupWidth | N + 1).
Proof.
  intros HN Hg. unfold paddedLength_steps. cbv zeta.
  set (h := (N + 2) / 2).
  pose proof (Z.div_mod (N + 2) 2 ltac:(lia)) as Hdiv. fold h in Hdiv.
  pose proof (Z.mod_pos_bound (N + 2) 2 ltac:(lia)) as Hmod.
  pose proof (round_up_bounds h groupWidth Hg) as Hb.
  pose proof (round_up_fixed h groupWidth Hg) as Hfix.
  destruct (Z.eq_dec ((N + 2) mod 2) 0) as [E|E].
  - split; [|lia]. intros _ [q Hq].
    assert (2 * (q * groupWidth) = 2 * h - 1) by lia. lia.
  - assert (Hodd : N + 1 = 2 * h) by lia.
    split.
    + intros Hle [q Hq].
      assert (Hh : (groupWidth | h)) by (exists q; lia).
      apply Hfix in Hh. lia.
    + intros Hno.
      assert (Hne : round_up h groupWidth <> h).
      { intros Heq. apply Hfix in Heq. destruct Heq as [q Hq].
        apply Hno. exists q. lia. }
      lia.
Qed.

(** C1 (amended): for every positive [N] and positive group width whose
    padded length fits an [int], the padded length is at least
    [2 * (N / 2 + 1)], the doubles of the [N / 2 + 1] complex outputs, and
    so at least [N + 1]; it is at least [N + 2] exactly when twice the
    group width does not divide [N + 1], which is the case of every even
    [N]. *)
Theorem paddedLength_holds_complex_outputs N groupWidth :
  0 < N -> 0 < groupWidth <= INT_MAX ->
  paddedLength_steps N groupWidth <= INT_MAX ->
  (forall m, exists r,
      paddedLength N groupWidth m = Returns (r, m) /\
      2 * (N / 2 + 1) <= r /\ N + 1 <= r) /\
  (holds_real_fft N groupWidth <-> ~ (2 * groupWidth | N + 1)) /\
  (Z.even N = true -> holds_real_fft N groupWidth).
Proof.
  intros HN Hg Hfit.
  pose proof (half_bounds N ltac:(lia)) as Hh.
  pose proof (round_up_bounds ((N + 2) / 2) groupWidth ltac:(lia)) as Hr.
  pose proof (paddedLength_steps_reach N groupWidth ltac:(lia) ltac:(lia))
    as Hreach.
  assert (Hhalf : (N + 2) / 2 = N / 2 + 1).
  { replace (N + 2) with (N + 1 * 2) by lia. apply Z.div_add. lia. }
  assert (Hrun : forall m, paddedLength N groupWidth m =
                           Returns (paddedLength_steps N groupWidth, m))
    by (intros m; apply paddedLength_run; lia).
  assert (Hiff : holds_real_fft N groupWidth <-> ~ (2 * groupWidth | N + 1)).
  { rewrite <- Hreach. split.
    - intros H. destruct (H initial_memory) as (r & Hr' & Hle).
      rewrite Hrun in Hr'. injection Hr' as <-. exact Hle.
    - intros Hle m. exists (paddedLength_steps N groupWidth).
      split; [apply Hrun | exact Hle]. }
  split; [|split].
  - intros m. exists (paddedLength_steps N groupWidth).
    split; [apply Hrun|].
    unfold paddedLength_steps. cbv zeta. lia.
  - exact Hiff.
  - intros Heven. apply Hiff. intros [q Hq].
    apply Z.even_spec in Heven. destruct Heven as [k Hk].
    assert (2 * (q * groupWidth) = 2 * k + 1) by lia. lia.
Qed.

Lemma paddedLength_holds_complex_outputs_witness :
  (0 < 65 /\ 0 < 32 <= INT_MAX /\ paddedLength_steps 65 32 <= INT_MAX) /\
  (forall m, exists r,
      paddedLength 65 32 m = Returns (r, m) /\
      2 * (65 / 2 + 1) <= r /\ 65 + 1 <= r) /\
  (holds_real_fft 65 32 <-> ~ (2 * 32 | 65 + 1)) /\
  (Z.even 65 = true -> holds_real_fft 65 32).
Proof.
  assert (HN : 0 < 65) by closed_goal.
  assert (Hg : 0 < 32 <= INT_MAX) by closed_goal.
  assert (Hfit : paddedLength_steps 65 32 <= INT_MAX) by closed_goal.
  split; [auto|].
  exact (paddedLength_holds_complex_outputs 65 32 HN Hg Hfit).
Defined.

(** C1 as stated fails at [N = 63] with the group width 32 of the program:
    the padded length is 64, one less than [N + 2]. *)
Lemma paddedLength_odd_counterexample :
  0 < 63 <= UINT_MAX /\ 0 < 32 <= INT_MAX /\
  paddedLength 63 32 initial_memory = Returns (64, initial_memory) /\
  ~ holds_real_fft 63 32.
Proof.
  split; [closed_goal|]. split; [closed_goal|]. split; [reflexivity|].
  intros H. destruct (H initial_memory) as (r & Hr & Hle).
  vm_compute in Hr. injection Hr as <-. vm_compute in Hle. apply Hle. reflexivity.
Qed.

(** C2 (amended): for every positive [N] and positive group width whose
    padded length fits an [int], the computation takes the half
    [(N + 2) / 2] rounded down, as C's division does, rounds it up to the
    nearest multiple of the group width (unchanged if the remainder is 0,
    otherwise adding the group width minus the remainder) and returns twice
    the rounded half; for an even [N] this half is [ceil((N + 2) / 2)] and
    the steps are those of the specification. *)
Theorem paddedLength_three_steps N groupWidth :
  0 < N -> 0 < groupWidth <= INT_MAX ->
  paddedLength_steps N groupWidth <= INT_MAX ->
  (forall m,
      paddedLength N groupWidth m =
      Returns (paddedLength_steps N groupWidth, m)) /\
  (Z.even N = true -> follows_spec_steps N groupWidth).
Proof.
  intros HN Hg Hfit. split.
  - intros m. apply paddedLength_run; [lia|assumption|assumption].
  - intros Heven m. apply Z.even_spec in Heven. destruct Heven as [k Hk].
    rewrite paddedLength_run by (assumption || lia).
    unfold paddedLength_steps, paddedLength_spec, ceil_half. cbv zeta.
    replace ((N + 2 + 1) / 2) with ((N + 2) / 2); [reflexivity|].
    subst N.
    replace (2 * k + 2) with ((k + 1) * 2) by lia.
    replace ((k + 1) * 2 + 1) with (1 + (k + 1) * 2) by lia.
    rewrite Z.div_mul, Z.div_add by lia. reflexivity.
Qed.

Lemma paddedLength_three_steps_witness :
  (0 < 128 /\ 0 < 32 <= INT_MAX /\ paddedLength_steps 128 32 <= INT_MAX) /\
  (forall m, paddedLength 128 32 m = Returns (paddedLength_steps 128 32, m)) /\
  (Z.even 128 = true -> follows_spec_steps 128 32).
Proof.
  assert (HN : 0 < 128) by closed_goal.
  assert (Hg : 0 < 32 <= INT_MAX) by closed_goal.
  assert (Hfit : paddedLength_steps 128 32 <= INT_MAX) by closed_goal.
  split; [auto|].
  exact (paddedLength_three_steps 128 32 HN Hg Hfit).
Defined.

(** C2 as stated fails at [N = 63], [groupWidth = 32]: the steps of the
    specification give 128 (half 33, rounded up to 64), the program gives
    64 (half 32, already aligned). *)
Lemma paddedLength_ceil_counterexample :
  0 < 63 <= UINT_MAX /\ 0 < 32 <= INT_MAX /\
  paddedLength_spec 63 32 = 128 /\
  paddedLength 63 32 initial_memory = Returns (64, initial_memory) /\
  ~ follows_spec_steps 63 32.
Proof.
  split; [closed_goal|]. split; [closed_goal|].
  split; [reflexivity|]. split; [reflexivity|].
  intros H. specialize (H initial_memory). vm_compute in H. discriminate H.
Qed.

(** C4 (amended): for every positive [N] and positive group width whose
    padded length fits an [int], the padded length is even and its half is
    a multiple of the group width. *)
Theorem paddedLength_even_and_aligned N groupWidth :
  0 < N -> 0 < groupWidth <= INT_MAX ->
  paddedLength_steps N groupWidth <= INT_MAX ->
  even_and_aligned N groupWidth.
Proof.
  intros HN Hg Hfit m. exists (paddedLength_steps N groupWidth).
  split; [apply paddedLength_run; lia|].
  unfold paddedLength_steps. cbv zeta.
  rewrite (Z.mul_comm 2). split.
  - apply Z.mod_mul. lia.
  - rewrite Z.div_mul by lia.
    apply Z.mod_divide; [lia|]. apply round_up_multiple. lia.
Qed.

Lemma paddedLength_even_and_aligned_witness :
  (0 < 128 /\ 0 < 32 <= INT_MAX /\ paddedLength_steps 128 32 <= INT_MAX) /\
  even_and_aligned 128 32.
Proof.
  assert (HN : 0 < 128) by closed_goal.
  assert (Hg : 0 < 32 <= INT_MAX) by closed_goal.
  assert (Hfit : paddedLength_steps 128 32 <= INT_MAX) by closed_goal.
  split; [auto|].
  exact (paddedLength_even_and_aligned 128 32 HN Hg Hfit).
Defined.

(** C4 as stated fails at [N = 4294967292], [groupWidth = 3]: the half is
    [INT_MAX], and rounding it up to a multiple of 3 overflows [int]. *)
Lemma paddedLength_aligned_counterexample :
  0 < 4294967292 <= UINT_MAX /\ 0 < 3 <= INT_MAX /\
  paddedLength 4294967292 3 initial_memory = Undefined SignedOverflow /\
  ~ even_and_aligned 4294967292 3.
Proof.
  split; [closed_goal|]. split; [closed_goal|]. split; [reflexivity|].
  intros H. destruct (H initial_memory) as (r & Hr & _).
  vm_compute in Hr. discriminate Hr.
Qed.

(** C5: the padded length of 128 is 192, that of 30 is 64 and that of 62 is
    64, each with the group width 32. *)
Theorem paddedLength_concrete m :
  paddedLength 128 32 m = Returns (192, m) /\
  paddedLength 30 32 m = Returns (64, m) /\
  paddedLength 62 32 m = Returns (64, m).
Proof. repeat split; reflexivity. Qed.

(** C6 (amended): for every positive [N] and positive group width such
    that [N + 2] is divisible by twice the group width and is at most
    [INT_MAX], the padded length is exactly [N + 2]. *)
Theorem paddedLength_exact N groupWidth :
  0 < N -> 0 < groupWidth ->
  (2 * groupWidth | N + 2) -> N + 2 <= INT_MAX ->
  adds_no_padding N groupWidth.
Proof.
  intros HN Hg [q Hq] Hfit m.
  assert (Hhalf : (N + 2) / 2 = q * groupWidth).
  { rewrite Hq. replace (q * (2 * groupWidth)) with (q * groupWidth * 2) by lia.
    apply Z.div_mul. lia. }
  assert (Hsteps : paddedLength_steps N groupWidth = N + 2).
  { unfold paddedLength_steps. cbv zeta. rewrite Hhalf.
    assert (Hfix : round_up (q * groupWidth) groupWidth = q * groupWidth)
      by (apply round_up_fixed; [lia | exists q; reflexivity]).
    rewrite Hfix. lia. }
  rewrite <- Hsteps. apply paddedLength_run; [lia | | lia].
  unfold INT_MAX in *. assert (0 < q) by nia. nia.
Qed.

Lemma paddedLength_exact_witness :
  (0 < 62 /\ 0 < 32 /\ (2 * 32 | 62 + 2) /\ 62 + 2 <= INT_MAX) /\
  adds_no_padding 62 32.
Proof.
  assert (HN : 0 < 62) by closed_goal.
  assert (Hg : 0 < 32) by closed_goal.
  assert (Hd : (2 * 32 | 62 + 2)) by closed_goal.
  assert (Hfit : 62 + 2 <= INT_MAX) by closed_goal.
  split; [auto|].
  exact (paddedLength_exact 62 32 HN Hg Hd Hfit).
Defined.

(** C6 as stated fails at [N = 4294967294], [groupWidth = 32]: [N + 2] is
    2^32, a multiple of 64, the unsigned sum wraps to 0 and the padded
    length is 0.  It fails as well at [N = 2147483646]: [N + 2] is 2^31,
    and doubling its half overflows [int]. *)
Lemma paddedLength_exact_counterexample :
  (0 < 4294967294 <= UINT_MAX /\ 0 < 32 <= INT_MAX /\
   (2 * 32 | 4294967294 + 2) /\
   paddedLength 4294967294 32 initial_memory = Returns (0, initial_memory) /\
   ~ adds_no_padding 4294967294 32) /\
  (0 < 2147483646 <= UINT_MAX /\
   (2 * 32 | 2147483646 + 2) /\
   paddedLength 2147483646 32 initial_memory = Undefined SignedOverflow /\
   ~ adds_no_padding 2147483646 32).
Proof.
  split.
  - split; [closed_goal|]. split; [closed_goal|]. split; [closed_goal|].
    split; [reflexivity|].
    intros H. specialize (H initial_memory). vm_compute in H. discriminate H.
  - split; [closed_goal|]. split; [closed_goal|]. split; [reflexivity|].
    intros H. specialize (H initial_memory). vm_compute in H. discriminate H.
Qed.

(** ** Arguments that are not positive *)

(** With a negative group width the remainder keeps the sign of the
    half, and the function returns the half lowered to a multiple. *)
Lemma roundUpToNearest_negative_width x n m :
  0 <= x <= 2 ^ 29 -> - 2 ^ 29 <= n < 0 ->
  exists r, roundUpToNearest x n m = Returns (r, m) /\ - 2 ^ 30 < r <= x.
Proof.
  intros Hx Hn. unfold roundUpToNearest.
  rewrite (bind_returns _ _ _ _ _ (int_rem_returns x n m ltac:(lia) ltac:(lia))).
  assert (Hrem : 0 <= Z.rem x n < - n).
  { rewrite <- (Z.rem_opp_r' x n). apply Z.rem_bound_pos; lia. }
  change (2 ^ 29) with 536870912 in *. change (2 ^ 30) with 1073741824.
  destruct (Z.eqb_spec (Z.rem x n) 0) as [E|E].
  - exists x. split; [reflexivity|lia].
  - exists (x + (n - Z.rem x n)). split; [|lia].
    unfold int_sub, int_add.
    rewrite (bind_returns _ _ (n - Z.rem x n) m m)
      by (apply int_result_returns; unfold INT_MIN, INT_MAX; lia).
    apply int_result_returns. unfold INT_MIN, INT_MAX. lia.
Qed.

Lemma round_up_one n : 0 < n -> round_up 1 n = n.
Proof.
  intros Hn. apply (least_multiple_unique n 1).
  - apply round_up_is_least, Hn.
  - split; [exists 1; lia|]. split; [lia|].
    intros k [q ->] Hk. assert (0 < q) by nia. nia.
Qed.

(** C7 (amended): the padded-length computation checks no argument and has
    no invalid-argument error.  For a logical length 0, and for a negative
    group width, it returns a number as for any other input (whenever
    [N < 2^30] and the group width is not 0 and between [-2^29] and
    [2^29]); for [N = 0] and a positive group width that number is twice
    the group width; for the group width 0 the remainder divides by zero,
    which is undefined and no reported error. *)
Theorem paddedLength_unchecked N groupWidth m :
  0 <= N <= UINT_MAX -> INT_MIN <= groupWidth <= INT_MAX ->
  (groupWidth = 0 ->
   paddedLength N groupWidth m = Undefined DivisionByZero) /\
  (N < 2 ^ 30 -> groupWidth <> 0 -> - 2 ^ 29 <= groupWidth <= 2 ^ 29 ->
   exists r, paddedLength N groupWidth m = Returns (r, m)) /\
  (N = 0 -> 0 < groupWidth -> 2 * groupWidth <= INT_MAX ->
   paddedLength N groupWidth m = Returns (2 * groupWidth, m)).
Proof.
  intros HN Hg. split; [|split].
  - intros ->. reflexivity.
  - intros HN' Hg0 Hg'.
    change (2 ^ 29) with 536870912 in *. change (2 ^ 30) with 1073741824 in *.
    pose proof (half_bounds N ltac:(lia)) as Hh.
    destruct (Z.lt_trichotomy groupWidth 0) as [Hneg|[Hz|Hpos]]; [|lia|].
    + unfold paddedLength.
      rewrite half_argument by (unfold UINT_MAX; lia).
      destruct (roundUpToNearest_negative_width ((N + 2) / 2) groupWidth m)
        as (r & Hr & Hb);
        [change (2 ^ 29) with 536870912; lia ..|].
      change (2 ^ 30) with 1073741824 in Hb.
      rewrite (bind_returns _ _ _ _ _ Hr). unfold int_mul.
      rewrite (bind_returns _ _ (2 * r) m m)
        by (apply int_result_returns; unfold INT_MIN, INT_MAX; lia).
      eexists. reflexivity.
    + exists (paddedLength_steps N groupWidth).
      apply paddedLength_run; [lia | lia |].
      pose proof (round_up_bounds ((N + 2) / 2) groupWidth Hpos).
      unfold paddedLength_steps, INT_MAX. cbv zeta. lia.
  - intros -> Hpos Hfit.
    rewrite paddedLength_run by (assumption || lia ||
      (unfold paddedLength_steps; cbv zeta;
       change ((0 + 2) / 2) with 1; rewrite round_up_one; assumption)).
    unfold paddedLength_steps. cbv zeta.
    change ((0 + 2) / 2) with 1. rewrite round_up_one by assumption.
    reflexivity.
Qed.

Lemma paddedLength_unchecked_witness :
  (0 <= 0 <= UINT_MAX /\ INT_MIN <= -32 <= INT_MAX /\ INT_MIN <= 32 <= INT_MAX) /\
  (exists r, paddedLength 0 (-32) initial_memory = Returns (r, initial_memory)) /\
  paddedLength 0 32 initial_memory = Returns (2 * 32, initial_memory).
Proof.
  assert (HN : 0 <= 0 <= UINT_MAX) by closed_goal.
  assert (Hneg : INT_MIN <= -32 <= INT_MAX) by closed_goal.
  assert (Hpos : INT_MIN <= 32 <= INT_MAX) by closed_goal.
  split; [auto|]. split.
  - apply (proj1 (proj2 (paddedLength_unchecked 0 (-32) initial_memory HN Hneg)));
      closed_goal.
  - apply (proj2 (proj2 (paddedLength_unchecked 0 32 initial_memory HN Hpos)));
      closed_goal.
Defined.

(** C7 as stated fails at [N = 0], [groupWidth = 32], where the computation
    returns 64, and at [N = 128], [groupWidth = -32], where it returns 64
    as well. *)
Lemma paddedLength_unchecked_counterexample :
  (0 <= 0 /\
   paddedLength 0 32 initial_memory = Returns (64, initial_memory) /\
   ~ returns_no_result 0 32) /\
  (-32 <= 0 /\
   paddedLength 128 (-32) initial_memory = Returns (64, initial_memory) /\
   ~ returns_no_result 128 (-32)).
Proof.
  split; (split; [closed_goal|]); (split; [reflexivity|]);
    intros H; apply (H initial_memory 64 initial_memory); reflexivity.
Qed.

(** ** Purity *)

(** C8: [roundUpToNearest] and the padded-length computation have one
    outcome for given arguments, whatever the memory they run in, and leave
    the memory unchanged. *)
Theorem paddedLength_deterministic x n N groupWidth :
  state_independent (roundUpToNearest x n) /\
  state_independent (paddedLength N groupWidth).
Proof.
  split; apply pure_state_independent;
    [apply pure_roundUpToNearest | apply pure_paddedLength].
Qed.

(** ** main *)

(** C9: for [N = 128] the padded length is the one computed with the group
    width 32, the byte size is the padded length times the size of a
    double, the global worker count is half the padded length and the
    group width is 32; the host block and the device buffer hold as many
    doubles as the padded length. *)
Theorem main_configuration p :
  0 < sizeof_double p -> 192 * sizeof_double p <= SIZE_MAX p ->
  exists l m,
    main_setup p initial_memory = Returns (l, m) /\
    Main.N l = 128 /\
    paddedLength (Main.N l) 32 initial_memory =
      Returns (Main.N_pad l, initial_memory) /\
    Main.N_bytes l = Main.N_pad l * sizeof_double p /\
    Main.globalSize l = Main.N_pad l / 2 /\
    Main.localSize l = 32 /\
    length <$> host m !! Main.h_v l = Some (Z.to_nat (Main.N_pad l)) /\
    length <$> device m !! Main.d_v l = Some (Z.to_nat (Main.N_pad l)).
Proof.
  intros Hd Hfit. eexists. eexists.
  split; [apply main_setup_run; assumption|].
  cbn [Main.N Main.N_pad Main.N_bytes Main.globalSize Main.localSize
       Main.h_v Main.d_v host device].
  repeat split; reflexivity.
Qed.

Lemma main_configuration_witness :
  (0 < sizeof_double lp64 /\ 192 * sizeof_double lp64 <= SIZE_MAX lp64) /\
  exists l m,
    main_setup lp64 initial_memory = Returns (l, m) /\
    Main.N l = 128 /\
    paddedLength (Main.N l) 32 initial_memory =
      Returns (Main.N_pad l, initial_memory) /\
    Main.N_bytes l = Main.N_pad l * sizeof_double lp64 /\
    Main.globalSize l = Main.N_pad l / 2 /\
    Main.localSize l = 32 /\
    length <$> host m !! Main.h_v l = Some (Z.to_nat (Main.N_pad l)) /\
    length <$> device m !! Main.d_v l = Some (Z.to_nat (Main.N_pad l)).
Proof.
  assert (Hd : 0 < sizeof_double lp64) by closed_goal.
  assert (Hfit : 192 * sizeof_double lp64 <= SIZE_MAX lp64) by closed_goal.
  split; [auto|]. exact (main_configuration lp64 Hd Hfit).
Defined.

(** C3: what the program does where the claim asks for zeros.  Before the
    forward transform the host block and the device buffer hold the signal
    0, 1, ..., 127 in their first 128 doubles; the 64 doubles after it were
    allocated by [malloc] and never written, so they are indeterminate and
    the buffer is not the zero-padded signal. *)
Theorem main_buffer_padding_indeterminate p :
  0 < sizeof_double p -> 192 * sizeof_double p <= SIZE_MAX p ->
  exists l m,
    main_setup p initial_memory = Returns (l, m) /\
    host m !! Main.h_v l = Some (unpadded_signal 128 192) /\
    device m !! Main.d_v l = Some (unpadded_signal 128 192) /\
    take 128 (unpadded_signal 128 192) = Num <$> seqZ 0 128 /\
    drop 128 (unpadded_signal 128 192) = replicate 64 Indeterminate /\
    drop 128 (zero_padded_signal 128 192) = replicate 64 (Num 0) /\
    unpadded_signal 128 192 <> zero_padded_signal 128 192.
Proof.
  intros Hd Hfit. eexists. eexists.
  split; [apply main_setup_run; assumption|].
  repeat split; try reflexivity.
  vm_compute. discriminate.
Qed.

Lemma main_buffer_padding_indeterminate_witness :
  (0 < sizeof_double lp64 /\ 192 * sizeof_double lp64 <= SIZE_MAX lp64) /\
  exists l m,
    main_setup lp64 initial_memory = Returns (l, m) /\
    host m !! Main.h_v l = Some (unpadded_signal 128 192) /\
    device m !! Main.d_v l = Some (unpadded_signal 128 192) /\
    take 128 (unpadded_signal 128 192) = Num <$> seqZ 0 128 /\
    drop 128 (unpadded_signal 128 192) = replicate 64 Indeterminate /\
    drop 128 (zero_padded_signal 128 192) = replicate 64 (Num 0) /\
    unpadded_signal 128 192 <> zero_padded_signal 128 192.
Proof.
  assert (Hd : 0 < sizeof_double lp64) by closed_goal.
  assert (Hfit : 192 * sizeof_double lp64 <= SIZE_MAX lp64) by closed_goal.
  split; [auto|]. exact (main_buffer_padding_indeterminate lp64 Hd Hfit).
Defined.

(** * Further properties *)

(** ** Rounding on the machine, beyond the least multiple *)

Lemma round_up_mono x y n : 0 < n -> x <= y -> round_up x n <= round_up y n.
Proof.
  intros Hn Hxy. apply round_up_least; [assumption | apply round_up_multiple, Hn |].
  pose proof (round_up_bounds y n Hn). lia.
Qed.

Lemma round_up_idempotent x n :
  0 < n -> round_up (round_up x n) n = round_up x n.
Proof. intros Hn. apply round_up_fixed; [assumption | apply round_up_multiple, Hn]. Qed.

Lemma round_up_representable x n :
  0 < n -> (exists k, (n | k) /\ x <= k <= INT_MAX) -> round_up x n <= INT_MAX.
Proof.
  intros Hn (k & Hk & Hxk).
  pose proof (round_up_least x n Hn k Hk ltac:(lia)). lia.
Qed.

Lemma roundUpToNearest_returns x n m :
  0 <= x -> 0 < n <= INT_MAX -> round_up x n <= INT_MAX ->
  roundUpToNearest x n m = Returns (round_up x n, m).
Proof.
  intros Hx Hn Hfit. pose proof (round_up_bounds x n ltac:(lia)).
  rewrite roundUpToNearest_run by lia.
  apply int_result_returns. unfold INT_MIN. lia.
Qed.

(** X1: rounding a rounded value changes nothing.  For a non-negative [x]
    and a positive [n] with a multiple of [n] between [x] and [INT_MAX],
    [roundUpToNearest] returns some [r], and called on [r] it returns [r]
    again. *)
Theorem roundUpToNearest_idempotent x n m :
  0 <= x -> 0 < n <= INT_MAX ->
  (exists k, (n | k) /\ x <= k <= INT_MAX) ->
  exists r,
    roundUpToNearest x n m = Returns (r, m) /\
    roundUpToNearest r n m = Returns (r, m).
Proof.
  intros Hx Hn Hk. exists (round_up x n).
  pose proof (round_up_representable x n ltac:(lia) Hk) as Hfit.
  pose proof (round_up_bounds x n ltac:(lia)) as Hb.
  split; [apply roundUpToNearest_returns; assumption|].
  rewrite <- (round_up_idempotent x n) at 2 by lia.
  apply roundUpToNearest_returns; [lia | assumption |].
  rewrite round_up_idempotent by lia. assumption.
Qed.

Lemma roundUpToNearest_idempotent_witness :
  (0 <= 65 /\ 0 < 32 <= INT_MAX /\
   exists k, (32 | k) /\ 65 <= k <= INT_MAX) /\
  exists r,
    roundUpToNearest 65 32 initial_memory = Returns (r, initial_memory) /\
    roundUpToNearest r 32 initial_memory = Returns (r, initial_memory).
Proof.
  assert (Hx : 0 <= 65) by closed_goal.
  assert (Hn : 0 < 32 <= INT_MAX) by closed_goal.
  assert (Hk : exists k, (32 | k) /\ 65 <= k <= INT_MAX)
    by (exists 96; closed_goal).
  split; [auto|].
  exact (roundUpToNearest_idempotent 65 32 initial_memory Hx Hn Hk).
Defined.

(** X2: rounding is monotone.  For non-negative [x <= y] and a positive
    [n] with a multiple of [n] between [y] and [INT_MAX],
    [roundUpToNearest] returns for [x] a value that is at most the one it
    returns for [y]. *)
Theorem roundUpToNearest_monotone x y n m :
  0 <= x <= y -> 0 < n <= INT_MAX ->
  (exists k, (n | k) /\ y <= k <= INT_MAX) ->
  exists r s,
    roundUpToNearest x n m = Returns (r, m) /\
    roundUpToNearest y n m = Returns (s, m) /\
    r <= s.
Proof.
  intros Hxy Hn Hk. exists (round_up x n), (round_up y n).
  pose proof (round_up_representable y n ltac:(lia) Hk) as Hfit.
  pose proof (round_up_mono x y n ltac:(lia) ltac:(lia)) as Hmono.
  split; [apply roundUpToNearest_returns; lia|].
  split; [apply roundUpToNearest_returns; lia | assumption].
Qed.

Lemma roundUpToNearest_monotone_witness :
  (0 <= 33 <= 65 /\ 0 < 32 <= INT_MAX /\
   exists k, (32 | k) /\ 65 <= k <= INT_MAX) /\
  exists r s,
    roundUpToNearest 33 32 initial_memory = Returns (r, initial_memory) /\
    roundUpToNearest 65 32 initial_memory = Returns (s, initial_memory) /\
    r <= s.
Proof.
  assert (Hxy : 0 <= 33 <= 65) by closed_goal.
  assert (Hn : 0 < 32 <= INT_MAX) by closed_goal.
  assert (Hk : exists k, (32 | k) /\ 65 <= k <= INT_MAX)
    by (exists 96; closed_goal).
  split; [auto|].
  exact (roundUpToNearest_monotone 33 65 32 initial_memory Hxy Hn Hk).
Defined.

Lemma int_rem_returns_positive a b m :
  0 < b -> int_rem a b m = Returns (Z.rem a b, m).
Proof.
  intros Hb. unfold int_rem.
  destruct (Z.eqb_spec b 0) as [->|_]; [lia|].
  destruct (Z.eqb_spec b (-1)) as [->|_]; [lia|].
  rewrite andb_false_r. reflexivity.
Qed.

Lemma rem_negative_bounds x n : x < 0 -> 0 < n -> - n < Z.rem x n <= 0.
Proof.
  intros Hx Hn. pose proof (Z.rem_bound_pos (- x) n ltac:(lia) Hn) as Hb.
  rewrite Z.rem_opp_l' in Hb. lia.
Qed.

(** X3: a negative [x] is rounded one multiple too high.  For a negative
    [x] and a positive [n] up to 2^30, [roundUpToNearest] returns a
    multiple of [n]; it is [x] when [x] is a multiple of [n], and otherwise
    it is [n] more than the least multiple of [n] that is at least [x],
    because C's remainder of a negative [x] is negative. *)
Theorem roundUpToNearest_negative_x x n m :
  INT_MIN <= x < 0 -> 0 < n <= 2 ^ 30 ->
  exists r,
    roundUpToNearest x n m = Returns (r, m) /\
    (n | r) /\
    ((n | x) -> r = x) /\
    (~ (n | x) -> least_multiple_from n x (r - n)).
Proof.
  intros Hx Hn. change (2 ^ 30) with 1073741824 in Hn.
  pose proof (rem_negative_bounds x n ltac:(lia) ltac:(lia)) as Hrem.
  pose proof (Z.quot_rem' x n) as Hq.
  unfold roundUpToNearest.
  rewrite (bind_returns _ _ _ _ _ (int_rem_returns_positive x n m ltac:(lia))).
  destruct (Z.eqb_spec (Z.rem x n) 0) as [E|E].
  - exists x. split; [reflexivity|].
    assert (Hdiv : (n | x)) by (exists (Z.quot x n); lia).
    split; [assumption|]. split; [reflexivity|]. intros Hno. contradiction.
  - exists (x + (n - Z.rem x n)). unfold INT_MIN in Hx.
    split.
    { unfold int_sub, int_add.
      rewrite (bind_returns _ _ (n - Z.rem x n) m m)
        by (apply int_result_returns; unfold INT_MIN, INT_MAX; lia).
      apply int_result_returns. unfold INT_MIN, INT_MAX. lia. }
    split; [exists (Z.quot x n + 1); lia|].
    split.
    { intros [q Hx']. exfalso. apply E.
      assert (Hm : n * (Z.quot x n - q) = - Z.rem x n) by lia.
      assert (Z.quot x n - q = 0) by nia. lia. }
    intros _. replace (x + (n - Z.rem x n) - n) with (n * Z.quot x n) by lia.
    split; [exists (Z.quot x n); lia|]. split; [lia|].
    intros k [q ->] Hk. assert (Z.quot x n - 1 < q) by nia. nia.
Qed.

Lemma roundUpToNearest_negative_x_witness :
  (INT_MIN <= -5 < 0 /\ 0 < 4 <= 2 ^ 30) /\
  exists r,
    roundUpToNearest (-5) 4 initial_memory = Returns (r, initial_memory) /\
    (4 | r) /\
    ((4 | -5) -> r = -5) /\
    (~ (4 | -5) -> least_multiple_from 4 (-5) (r - 4)).
Proof.
  assert (Hx : INT_MIN <= -5 < 0) by closed_goal.
  assert (Hn : 0 < 4 <= 2 ^ 30) by closed_goal.
  split; [auto|].
  exact (roundUpToNearest_negative_x (-5) 4 initial_memory Hx Hn).
Defined.

(** X4: a negative [n] rounds downwards, and too far.  For a non-negative
    [x] and an [n] between [-2^30] and [-1], [roundUpToNearest] returns a
    multiple of [n]; it is [x] when [x] is a multiple of [n], and otherwise
    it lies strictly between [x + 2 * n] and [x + n], more than [|n|] below
    [x]. *)
Theorem roundUpToNearest_negative_n x n m :
  0 <= x <= INT_MAX -> - 2 ^ 30 <= n < 0 ->
  exists r,
    roundUpToNearest x n m = Returns (r, m) /\
    (n | r) /\
    ((n | x) -> r = x) /\
    (~ (n | x) -> x + 2 * n < r < x + n).
Proof.
  intros Hx Hn. change (2 ^ 30) with 1073741824 in Hn. unfold INT_MAX in Hx.
  assert (Hrem : 0 <= Z.rem x n < - n).
  { rewrite <- (Z.rem_opp_r' x n). apply Z.rem_bound_pos; lia. }
  pose proof (Z.quot_rem' x n) as Hq.
  unfold roundUpToNearest.
  rewrite (bind_returns _ _ _ _ _ (int_rem_returns x n m ltac:(lia) ltac:(lia))).
  destruct (Z.eqb_spec (Z.rem x n) 0) as [E|E].
  - exists x. split; [reflexivity|].
    assert (Hdiv : (n | x)) by (exists (Z.quot x n); lia).
    split; [assumption|]. split; [reflexivity|]. intros Hno. contradiction.
  - exists (x + (n - Z.rem x n)).
    split.
    { unfold int_sub, int_add.
      rewrite (bind_returns _ _ (n - Z.rem x n) m m)
        by (apply int_result_returns; unfold INT_MIN, INT_MAX; lia).
      apply int_result_returns. unfold INT_MIN, INT_MAX. lia. }
    split; [exists (Z.quot x n + 1); lia|].
    split; [|intros _; lia].
    intros [q Hx']. exfalso. apply E.
    assert (Hm : n * (Z.quot x n - q) = - Z.rem x n) by lia.
    assert (Z.quot x n - q = 0) by nia. lia.
Qed.

Lemma roundUpToNearest_negative_n_witness :
  (0 <= 65 <= INT_MAX /\ - 2 ^ 30 <= -32 < 0) /\
  exists r,
    roundUpToNearest 65 (-32) initial_memory = Returns (r, initial_memory) /\
    (-32 | r) /\
    ((-32 | 65) -> r = 65) /\
    (~ (-32 | 65) -> 65 + 2 * -32 < r < 65 + -32).
Proof.
  assert (Hx : 0 <= 65 <= INT_MAX) by closed_goal.
  assert (Hn : - 2 ^ 30 <= -32 < 0) by closed_goal.
  split; [auto|].
  exact (roundUpToNearest_negative_n 65 (-32) initial_memory Hx Hn).
Defined.

(** ** The padded length as a function of the signal length *)

Lemma round_up_at_least_width x n : 0 < x -> 0 < n -> n <= round_up x n.
Proof.
  intros Hx Hn. destruct (round_up_multiple x n Hn) as [q Hq].
  pose proof (round_up_bounds x n Hn) as Hb. rewrite Hq in *.
  assert (0 < q) by nia. nia.
Qed.

Lemma half_positive N : 0 <= N -> 0 < (N + 2) / 2.
Proof. intros H. pose proof (half_bounds N H). lia. Qed.

Lemma half_of_even_successor N :
  Z.even N = true -> (N + 1 + 2) / 2 = (N + 2) / 2.
Proof.
  intros Heven. apply Z.even_spec in Heven. destruct Heven as [k ->].
  replace (2 * k + 1 + 2) with (1 + (k + 1) * 2) by lia.
  replace (2 * k + 2) with ((k + 1) * 2) by lia.
  rewrite Z.div_add, Z.div_mul by lia. reflexivity.
Qed.

(** X5: the padding is bounded.  For every [N >= 0] and positive group
    width whose padded length fits an [int], the padded length is at least
    twice the group width, so that there is at least one full group of work
    items, and at most [N + 2 * groupWidth]. *)
Theorem paddedLength_bounds N groupWidth m :
  0 <= N -> 0 < groupWidth <= INT_MAX ->
  paddedLength_steps N groupWidth <= INT_MAX ->
  exists r,
    paddedLength N groupWidth m = Returns (r, m) /\
    2 * groupWidth <= r <= N + 2 * groupWidth.
Proof.
  intros HN Hg Hfit. exists (paddedLength_steps N groupWidth).
  split; [apply paddedLength_run; assumption|].
  unfold paddedLength_steps. cbv zeta.
  pose proof (half_bounds N HN) as Hh.
  pose proof (round_up_bounds ((N + 2) / 2) groupWidth ltac:(lia)) as Hb.
  pose proof (round_up_at_least_width ((N + 2) / 2) groupWidth
                (half_positive N HN) ltac:(lia)).
  lia.
Qed.

Lemma paddedLength_bounds_witness :
  (0 <= 64 /\ 0 < 32 <= INT_MAX /\ paddedLength_steps 64 32 <= INT_MAX) /\
  exists r,
    paddedLength 64 32 initial_memory = Returns (r, initial_memory) /\
    2 * 32 <= r <= 64 + 2 * 32.
Proof.
  assert (HN : 0 <= 64) by closed_goal.
  assert (Hg : 0 < 32 <= INT_MAX) by closed_goal.
  assert (Hfit : paddedLength_steps 64 32 <= INT_MAX) by closed_goal.
  split; [auto|].
  exact (paddedLength_bounds 64 32 initial_memory HN Hg Hfit).
Defined.

(** X6: a longer signal never gets a shorter buffer.  For
    [0 <= N <= N'] and a positive group width for which the padded length
    of [N'] fits an [int], both padded lengths are returned and the one of
    [N] is at most the one of [N']. *)
Theorem paddedLength_monotone N N' groupWidth m :
  0 <= N <= N' -> 0 < groupWidth <= INT_MAX ->
  paddedLength_steps N' groupWidth <= INT_MAX ->
  exists r r',
    paddedLength N groupWidth m = Returns (r, m) /\
    paddedLength N' groupWidth m = Returns (r', m) /\
    r <= r'.
Proof.
  intros HN Hg Hfit.
  assert (Hmono : paddedLength_steps N groupWidth <=
                  paddedLength_steps N' groupWidth).
  { unfold paddedLength_steps. cbv zeta.
    assert ((N + 2) / 2 <= (N' + 2) / 2) by (apply Z.div_le_mono; lia).
    pose proof (round_up_mono ((N + 2) / 2) ((N' + 2) / 2) groupWidth
                  ltac:(lia) ltac:(lia)).
    lia. }
  exists (paddedLength_steps N groupWidth), (paddedLength_steps N' groupWidth).
  split; [apply paddedLength_run; lia|].
  split; [apply paddedLength_run; lia | assumption].
Qed.

Lemma paddedLength_monotone_witness :
  (0 <= 62 <= 128 /\ 0 < 32 <= INT_MAX /\
   paddedLength_steps 128 32 <= INT_MAX) /\
  exists r r',
    paddedLength 62 32 initial_memory = Returns (r, initial_memory) /\
    paddedLength 128 32 initial_memory = Returns (r', initial_memory) /\
    r <= r'.
Proof.
  assert (HN : 0 <= 62 <= 128) by closed_goal.
  assert (Hg : 0 < 32 <= INT_MAX) by closed_goal.
  assert (Hfit : paddedLength_steps 128 32 <= INT_MAX) by closed_goal.
  split; [auto|].
  exact (paddedLength_monotone 62 128 32 initial_memory HN Hg Hfit).
Defined.

(** X7: an odd length gets the buffer of the even length before it.  For
    every even [N >= 0] and positive group width whose padded length fits
    an [int], the padded length of [N + 1] is the padded length of [N]:
    the division by 2 drops the extra sample. *)
Theorem paddedLength_odd_as_even N groupWidth m :
  0 <= N -> Z.even N = true -> 0 < groupWidth <= INT_MAX ->
  paddedLength_steps N groupWidth <= INT_MAX ->
  exists r,
    paddedLength N groupWidth m = Returns (r, m) /\
    paddedLength (N + 1) groupWidth m = Returns (r, m).
Proof.
  intros HN Heven Hg Hfit.
  assert (Hsame : paddedLength_steps (N + 1) groupWidth =
                  paddedLength_steps N groupWidth).
  { unfold paddedLength_steps. cbv zeta.
    rewrite half_of_even_successor by assumption. reflexivity. }
  exists (paddedLength_steps N groupWidth).
  split; [apply paddedLength_run; assumption|].
  rewrite <- Hsame. apply paddedLength_run; [lia | assumption |].
  rewrite Hsame. assumption.
Qed.

Lemma paddedLength_odd_as_even_witness :
  (0 <= 128 /\ Z.even 128 = true /\ 0 < 32 <= INT_MAX /\
   paddedLength_steps 128 32 <= INT_MAX) /\
  exists r,
    paddedLength 128 32 initial_memory = Returns (r, initial_memory) /\
    paddedLength (128 + 1) 32 initial_memory = Returns (r, initial_memory).
Proof.
  assert (HN : 0 <= 128) by closed_goal.
  assert (He : Z.even 128 = true) by closed_goal.
  assert (Hg : 0 < 32 <= INT_MAX) by closed_goal.
  assert (Hfit : paddedLength_steps 128 32 <= INT_MAX) by closed_goal.
  split; [auto|].
  exact (paddedLength_odd_as_even 128 32 initial_memory HN He Hg Hfit).
Defined.

(** X8: a padded length is stable.  For every [N >= 0] and positive group
    width whose padded length [r] fits an [int], a signal of [r - 2]
    samples, which needs [r] doubles, gets the padded length [r] again. *)
Theorem paddedLength_stable N groupWidth m :
  0 <= N -> 0 < groupWidth <= INT_MAX ->
  paddedLength_steps N groupWidth <= INT_MAX ->
  exists r,
    paddedLength N groupWidth m = Returns (r, m) /\
    paddedLength (r - 2) groupWidth m = Returns (r, m).
Proof.
  intros HN Hg Hfit. exists (paddedLength_steps N groupWidth).
  split; [apply paddedLength_run; assumption|].
  pose proof (round_up_at_least_width ((N + 2) / 2) groupWidth
                (half_positive N HN) ltac:(lia)) as Hw.
  assert (Hsame : paddedLength_steps (paddedLength_steps N groupWidth - 2)
                    groupWidth = paddedLength_steps N groupWidth).
  { unfold paddedLength_steps. cbv zeta.
    replace (2 * round_up ((N + 2) / 2) groupWidth - 2 + 2)
      with (round_up ((N + 2) / 2) groupWidth * 2) by lia.
    rewrite Z.div_mul by lia. rewrite round_up_idempotent by lia.
    reflexivity. }
  rewrite <- Hsame at 2. apply paddedLength_run; [|assumption|].
  - unfold paddedLength_steps. cbv zeta. lia.
  - rewrite Hsame. assumption.
Qed.

Lemma paddedLength_stable_witness :
  (0 <= 128 /\ 0 < 32 <= INT_MAX /\ paddedLength_steps 128 32 <= INT_MAX) /\
  exists r,
    paddedLength 128 32 initial_memory = Returns (r, initial_memory) /\
    paddedLength (r - 2) 32 initial_memory = Returns (r, initial_memory).
Proof.
  assert (HN : 0 <= 128) by closed_goal.
  assert (Hg : 0 < 32 <= INT_MAX) by closed_goal.
  assert (Hfit : paddedLength_steps 128 32 <= INT_MAX) by closed_goal.
  split; [auto|].
  exact (paddedLength_stable 128 32 initial_memory HN Hg Hfit).
Defined.

(** ** The loop that fills the host buffer *)

Lemma for_each_app range1 range2 body m :
  for_each (range1 ++ range2) body m =
  match for_each range1 body m with
  | Returns (_, m') => for_each range2 body m'
  | Undefined f => Undefined f
  end.
Proof.
  revert m. induction range1 as [|i range1 IH]; intros m; [reflexivity|].
  cbn [app for_each]. unfold mbind, comp_bind.
  destruct (body i m) as [[[] m']|f]; [apply IH | reflexivity].
Qed.

Lemma for_each_singleton i body m :
  for_each [i] body m = body i m.
Proof.
  cbn [for_each]. unfold mbind, comp_bind.
  destruct (body i m) as [[[] m']|f]; reflexivity.
Qed.

(** The first [k] rounds of [for (i = 0; i < N; i++) h_v[i] = i;] on a
    block that has room for them. *)
Lemma fill_rounds (k : nat) ptr blk m :
  host m !! ptr = Some blk -> (k <= length blk)%nat ->
  for_each (seqZ 0 (Z.of_nat k)) (fun i => store ptr i (Num i)) m =
  Returns (tt, Memory (<[ptr := (Num <$> seqZ 0 (Z.of_nat k)) ++ drop k blk]>
                         (host m))
                      (device m)).
Proof.
  intros Hptr. induction k as [|k IH]; intros Hk.
  - cbn. rewrite drop_0, list_insert_id by assumption. destruct m; reflexivity.
  - rewrite seqZ_S, for_each_app, IH by lia. rewrite for_each_singleton.
    rewrite Z.add_0_l, fmap_app. cbn [fmap list_fmap].
    set (signal := Num <$> seqZ 0 (Z.of_nat k)).
    assert (Hlen : length signal = k)
      by (unfold signal; rewrite length_fmap, length_seqZ; lia).
    destruct (lookup_lt_is_Some_2 blk k ltac:(lia)) as [d Hd].
    unfold store. cbn [host device].
    rewrite list_lookup_insert_eq by (eapply lookup_lt_Some; eassumption).
    rewrite length_app, length_drop, Hlen.
    assert (Hin : (0 <=? Z.of_nat k) &&
                  (Z.of_nat k <? Z.of_nat (k + (length blk - k))) = true).
    { apply andb_true_iff. split; [apply Z.leb_le | apply Z.ltb_lt]; lia. }
    rewrite Hin, Nat2Z.id, list_insert_insert_eq.
    rewrite insert_app_r_alt by lia. rewrite Hlen, Nat.sub_diag.
    rewrite (drop_S blk d k Hd). cbn [insert list_insert].
    rewrite <- app_assoc. reflexivity.
Qed.

(** X9: the loop of lines 74-76 writes the signal and nothing else.  On a
    host block [blk] with room for [N] doubles, for [N] up to [INT_MAX] so
    that the [int] variable [i] does not overflow, the loop
    [for (i = 0; i < N; i++) h_v[i] = i;] returns and leaves the block as
    the signal 0, 1, ..., N-1 followed by the doubles of [blk] from
    position [N] on, unchanged; the other host blocks and the device
    buffers are as before. *)
Theorem fill_loop_writes_signal N ptr blk m :
  host m !! ptr = Some blk -> 0 <= N <= Z.of_nat (length blk) ->
  N <= INT_MAX ->
  for_each (seqZ 0 N) (fun i => store ptr i (Num i)) m =
  Returns (tt, Memory (<[ptr := (Num <$> seqZ 0 N) ++ drop (Z.to_nat N) blk]>
                         (host m))
                      (device m)).
Proof.
  intros Hptr HN _. rewrite <- (Z2Nat.id N) at 1 2 by lia.
  apply fill_rounds; [assumption | lia].
Qed.

Lemma fill_loop_writes_signal_witness :
  (host (Memory [replicate 4 Indeterminate] []) !! 0%nat =
     Some (replicate 4 Indeterminate) /\
   0 <= 3 <= Z.of_nat (length (replicate 4 Indeterminate)) /\
   3 <= INT_MAX) /\
  for_each (seqZ 0 3) (fun i => store 0 i (Num i))
    (Memory [replicate 4 Indeterminate] []) =
  Returns (tt, Memory (<[0%nat := (Num <$> seqZ 0 3) ++
                          drop (Z.to_nat 3) (replicate 4 Indeterminate)]>
                         (host (Memory [replicate 4 Indeterminate] [])))
                      (device (Memory [replicate 4 Indeterminate] []))).
Proof.
  assert (Hptr : host (Memory [replicate 4 Indeterminate] []) !! 0%nat =
                 Some (replicate 4 Indeterminate)) by reflexivity.
  assert (HN : 0 <= 3 <= Z.of_nat (length (replicate 4 Indeterminate)))
    by closed_goal.
  assert (Hmax : 3 <= INT_MAX) by closed_goal.
  split; [auto|].
  exact (fill_loop_writes_signal 3 0 (replicate 4 Indeterminate)
           (Memory [replicate 4 Indeterminate] []) Hptr HN Hmax).
Defined.



(** ** The kernel *)

Lemma int_value_returns z : INT_MIN <= z <= INT_MAX -> int_value z = Returns z.
Proof. intros H. unfold int_value. rewrite in_int_true by exact H. reflexivity. Qed.

Lemma int_of_size_t_small gid : 0 <= gid <= INT_MAX -> int_of_size_t gid = gid.
Proof.
  unfold int_of_size_t, int_of_uint, uint_wrap, UINT_MAX, INT_MAX. intros H.
  rewrite Z.mod_small by lia.
  destruct (Z.leb_spec gid 2147483647); [reflexivity | lia].
Qed.

Ltac step_kernel := cbv beta iota delta [mbind outcome_bind].

Section KernelProofs.

Context {D : Type}.
Variable times : Z -> D -> D.

Lemma global_load_inside (v : list D) (i : nat) d :
  v !! i = Some d -> global_load v (Z.of_nat i) = Returns d.
Proof.
  intros Hd. pose proof (lookup_lt_Some v i d Hd) as Hlt. unfold global_load.
  assert (Hin : (0 <=? Z.of_nat i) && (Z.of_nat i <? Z.of_nat (length v)) = true).
  { apply andb_true_iff. split; [apply Z.leb_le | apply Z.ltb_lt]; lia. }
  rewrite Hin, Nat2Z.id, Hd. reflexivity.
Qed.

Lemma global_load_outside (v : list D) i :
  Z.of_nat (length v) <= i -> global_load v i = Undefined OutOfBounds.
Proof.
  intros Hout. unfold global_load.
  assert (Hin : (0 <=? i) && (i <? Z.of_nat (length v)) = false).
  { apply andb_false_iff. right. apply Z.ltb_ge. lia. }
  rewrite Hin. reflexivity.
Qed.

Lemma global_store_inside (v : list D) (i : nat) d :
  (i < length v)%nat -> global_store v (Z.of_nat i) d = Returns (<[i := d]> v).
Proof.
  intros Hlt. unfold global_store.
  assert (Hin : (0 <=? Z.of_nat i) && (Z.of_nat i <? Z.of_nat (length v)) = true).
  { apply andb_true_iff. split; [apply Z.leb_le | apply Z.ltb_lt]; lia. }
  rewrite Hin, Nat2Z.id. reflexivity.
Qed.

(** The work item [i] on a buffer that holds its pair. *)
Lemma mult_run (v : list D) (i : nat) a b :
  v !! (2 * i)%nat = Some a -> v !! (2 * i + 1)%nat = Some b ->
  Z.of_nat (2 * i + 1) <= INT_MAX ->
  mult times v (Z.of_nat i) =
  Returns (<[(2 * i + 1)%nat := times 4 b]> (<[(2 * i)%nat := times 2 a]> v)).
Proof.
  intros Ha Hb Hmax. unfold INT_MAX in Hmax.
  pose proof (lookup_lt_Some _ _ _ Ha) as Hla.
  pose proof (lookup_lt_Some _ _ _ Hb) as Hlb.
  unfold mult. rewrite int_of_size_t_small by (unfold INT_MAX; lia). cbv zeta.
  replace (2 * Z.of_nat i) with (Z.of_nat (2 * i)) by lia.
  rewrite int_value_returns by (unfold INT_MIN, INT_MAX; lia). step_kernel.
  replace (Z.of_nat (2 * i) + 1) with (Z.of_nat (2 * i + 1)) by lia.
  rewrite int_value_returns by (unfold INT_MIN, INT_MAX; lia). step_kernel.
  rewrite (global_load_inside v _ a Ha). step_kernel.
  rewrite global_store_inside by assumption. step_kernel.
  rewrite (global_load_inside _ (2 * i + 1) b)
    by (rewrite list_lookup_insert_ne by lia; assumption).
  step_kernel.
  apply global_store_inside. rewrite length_insert. assumption.
Qed.

Lemma pair_of_item (i j : nat) :
  Z.of_nat j / 2 = Z.of_nat i <-> j = (2 * i)%nat \/ j = (2 * i + 1)%nat.
Proof.
  pose proof (Z.div_mod (Z.of_nat j) 2 ltac:(lia)).
  pose proof (Z.mod_pos_bound (Z.of_nat j) 2 ltac:(lia)). lia.
Qed.

Lemma factor_real (i : nat) : factor (2 * i) = 2.
Proof. unfold factor. rewrite Nat.even_mul. reflexivity. Qed.

Lemma factor_imaginary (i : nat) : factor (2 * i + 1) = 4.
Proof.
  unfold factor. rewrite Nat.add_1_r, Nat.even_succ, <- Nat.negb_even.
  rewrite Nat.even_mul. reflexivity.
Qed.

(** One work item multiplies its pair and nothing else. *)
Lemma mult_scaled_by (v : list D) (i : nat) :
  (2 * i + 1 < length v)%nat -> Z.of_nat (2 * i + 1) <= INT_MAX ->
  mult times v (Z.of_nat i) = Returns (scaled_by times [Z.of_nat i] v).
Proof.
  intros Hlen Hmax.
  destruct (lookup_lt_is_Some_2 v (2 * i) ltac:(lia)) as [a Ha].
  destruct (lookup_lt_is_Some_2 v (2 * i + 1) ltac:(lia)) as [b Hb].
  rewrite (mult_run v i a b Ha Hb Hmax). f_equal.
  apply list_eq. intros j. unfold scaled_by. rewrite list_lookup_imap.
  destruct (decide (j = (2 * i + 1)%nat)) as [->|Hj1].
  - rewrite list_lookup_insert_eq by (rewrite length_insert; lia).
    rewrite Hb. cbn [fmap option_fmap option_map].
    rewrite bool_decide_eq_true_2
      by (apply list_elem_of_singleton, pair_of_item; lia).
    rewrite factor_imaginary. reflexivity.
  - rewrite list_lookup_insert_ne by lia.
    destruct (decide (j = (2 * i)%nat)) as [->|Hj0].
    + rewrite list_lookup_insert_eq by lia.
      rewrite Ha. cbn [fmap option_fmap option_map].
      rewrite bool_decide_eq_true_2
        by (apply list_elem_of_singleton, pair_of_item; lia).
      rewrite factor_real. reflexivity.
    + rewrite list_lookup_insert_ne by lia.
      destruct (v !! j) as [d|]; [|reflexivity].
      cbn [fmap option_fmap option_map].
      rewrite bool_decide_eq_false_2; [reflexivity|].
      rewrite list_elem_of_singleton, pair_of_item. lia.
Qed.

Lemma length_scaled_by ids (v : list D) :
  length (scaled_by times ids v) = length v.
Proof. unfold scaled_by. apply length_imap. Qed.

Lemma scaled_by_cons id ids (v : list D) :
  id ∉ ids ->
  scaled_by times ids (scaled_by times [id] v) = scaled_by times (id :: ids) v.
Proof.
  intros Hfresh. apply list_eq. intros j. unfold scaled_by.
  rewrite !list_lookup_imap. destruct (v !! j) as [d|]; [|reflexivity].
  cbn [fmap option_fmap option_map]. f_equal.
  destruct (decide (Z.of_nat j / 2 = id)) as [E|E].
  - rewrite (bool_decide_eq_true_2 (_ ∈ [id]))
      by (apply list_elem_of_singleton, E).
    rewrite (bool_decide_eq_false_2 (_ ∈ ids)) by (rewrite E; exact Hfresh).
    rewrite (bool_decide_eq_true_2 (_ ∈ id :: ids))
      by (apply elem_of_cons; left; exact E).
    reflexivity.
  - rewrite (bool_decide_eq_false_2 (_ ∈ [id]))
      by (rewrite list_elem_of_singleton; exact E).
    destruct (decide (Z.of_nat j / 2 ∈ ids)) as [Hin|Hout].
    + rewrite (bool_decide_eq_true_2 (_ ∈ ids)) by exact Hin.
      rewrite (bool_decide_eq_true_2 (_ ∈ id :: ids))
        by (apply elem_of_cons; right; exact Hin).
      reflexivity.
    + rewrite (bool_decide_eq_false_2 (_ ∈ ids)) by exact Hout.
      rewrite (bool_decide_eq_false_2 (_ ∈ id :: ids))
        by (rewrite elem_of_cons; tauto).
      reflexivity.
Qed.

(** Work items with distinct ids, each with its pair inside the buffer, run
    one after the other: the buffer has the pairs of these items
    multiplied. *)
Lemma run_mult_scaled_by (order : list Z) (v : list D) :
  NoDup order ->
  (forall id, id ∈ order ->
     0 <= id /\ 2 * id + 1 < Z.of_nat (length v) /\ 2 * id + 1 <= INT_MAX) ->
  run_mult times order v = Returns (scaled_by times order v).
Proof.
  revert v. induction order as [|id order IH]; intros v Hnodup Hin.
  - cbn [run_mult]. f_equal. apply list_eq. intros j. unfold scaled_by.
    rewrite list_lookup_imap. destruct (v !! j) as [d|]; [|reflexivity].
    cbn [fmap option_fmap option_map].
    rewrite bool_decide_eq_false_2 by apply not_elem_of_nil. reflexivity.
  - apply NoDup_cons in Hnodup. destruct Hnodup as [Hfresh Hnodup].
    destruct (Hin id ltac:(left)) as (H0 & Hlen & Hmax).
    cbn [run_mult]. rewrite <- (Z2Nat.id id H0).
    rewrite mult_scaled_by by lia. step_kernel.
    rewrite IH.
    + rewrite scaled_by_cons by (rewrite Z2Nat.id by lia; assumption).
      reflexivity.
    + assumption.
    + intros id' Hid'. rewrite length_scaled_by. apply Hin. right. assumption.
Qed.

End KernelProofs.

Section KernelProperties.

Context {D : Type}.
Variable times : Z -> D -> D.

Lemma scaled_by_same_items ids ids' (v : list D) :
  (forall id, id ∈ ids <-> id ∈ ids') ->
  scaled_by times ids v = scaled_by times ids' v.
Proof.
  intros Hsame. apply list_eq. intros j. unfold scaled_by.
  rewrite !list_lookup_imap. destruct (v !! j) as [d|]; [|reflexivity].
  cbn [fmap option_fmap option_map]. f_equal.
  rewrite (bool_decide_ext _ _ (Hsame (Z.of_nat j / 2))). reflexivity.
Qed.

Lemma lookup_scaled_by ids (v : list D) j d :
  v !! j = Some d ->
  scaled_by times ids v !! j =
  Some (if bool_decide (Z.of_nat j / 2 ∈ ids) then times (factor j) d else d).
Proof.
  intros Hd. unfold scaled_by. rewrite list_lookup_imap, Hd. reflexivity.
Qed.

Lemma items_below g (v : list D) :
  0 <= g -> 2 * g <= Z.of_nat (length v) -> 2 * g <= INT_MAX + 1 ->
  forall id, id ∈ seqZ 0 g ->
    0 <= id /\ 2 * id + 1 < Z.of_nat (length v) /\ 2 * id + 1 <= INT_MAX.
Proof. intros Hg Hlen Hmax id Hid. apply elem_of_seqZ in Hid. lia. Qed.

Lemma half_below (j : nat) g : Z.of_nat j / 2 < g <-> Z.of_nat j < 2 * g.
Proof.
  pose proof (Z.div_mod (Z.of_nat j) 2 ltac:(lia)).
  pose proof (Z.mod_pos_bound (Z.of_nat j) 2 ltac:(lia)). lia.
Qed.

(** X11: one work item multiplies its own pair and nothing else.  For a
    global id [id >= 0] whose pair [2 * id], [2 * id + 1] lies inside the
    buffer, the kernel returns a buffer of the same length in which the
    double at [2 * id] is multiplied by 2, the double at [2 * id + 1] by 4,
    and every other double is as before. *)
Theorem mult_scales_its_pair (v : list D) id :
  0 <= id -> 2 * id + 1 < Z.of_nat (length v) -> 2 * id + 1 <= INT_MAX ->
  exists v',
    mult times v id = Returns v' /\
    length v' = length v /\
    forall (j : nat) d, v !! j = Some d ->
      v' !! j =
      Some (if bool_decide (Z.of_nat j / 2 = id) then times (factor j) d
            else d).
Proof.
  intros H0 Hlen Hmax. exists (scaled_by times [id] v).
  split; [|split].
  - rewrite <- (Z2Nat.id id H0). apply mult_scaled_by; lia.
  - apply length_scaled_by.
  - intros j d Hd. rewrite (lookup_scaled_by _ _ _ _ Hd). f_equal.
    rewrite (bool_decide_ext (Z.of_nat j / 2 ∈ [id]) (Z.of_nat j / 2 = id))
      by apply list_elem_of_singleton.
    reflexivity.
Qed.

(** X12: the kernel checks no bound.  For a global id [id >= 0] whose pair
    does not lie inside the buffer, because the buffer has at most
    [2 * id + 1] doubles, the kernel reads or writes outside the buffer:
    its behaviour is undefined. *)
Theorem mult_outside_buffer (v : list D) id :
  0 <= id -> 2 * id + 1 <= INT_MAX -> Z.of_nat (length v) <= 2 * id + 1 ->
  mult times v id = Undefined OutOfBounds.
Proof.
  intros H0 Hmax Hlen. unfold INT_MAX in Hmax.
  rewrite <- (Z2Nat.id id H0) in Hmax, Hlen |- *.
  set (i := Z.to_nat id) in *. clearbody i. clear H0.
  unfold mult. rewrite int_of_size_t_small by (unfold INT_MAX; lia). cbv zeta.
  replace (2 * Z.of_nat i) with (Z.of_nat (2 * i)) in * by lia.
  rewrite int_value_returns by (unfold INT_MIN, INT_MAX; lia). step_kernel.
  rewrite int_value_returns by (unfold INT_MIN, INT_MAX; lia). step_kernel.
  destruct (Z.le_gt_cases (Z.of_nat (length v)) (Z.of_nat (2 * i))) as [Hre|Hre].
  - rewrite global_load_outside by assumption. reflexivity.
  - destruct (lookup_lt_is_Some_2 v (2 * i) ltac:(lia)) as [a Ha].
    rewrite (global_load_inside v _ a Ha). step_kernel.
    rewrite global_store_inside by lia. step_kernel.
    rewrite global_load_outside by (rewrite length_insert; lia).
    reflexivity.
Qed.

(** X13: the dispatch multiplies the first [2 * globalSize] doubles.  When
    these lie inside the buffer, the kernel run for the global ids 0 to
    [globalSize - 1] returns a buffer of the same length in which every
    double at an even position below [2 * globalSize] is multiplied by 2,
    every double at an odd position below it by 4, each once, and the
    doubles from [2 * globalSize] on are as before. *)
Theorem dispatch_scales_prefix globalSize (v : list D) :
  0 <= globalSize -> 2 * globalSize <= Z.of_nat (length v) ->
  2 * globalSize <= INT_MAX + 1 ->
  exists v',
    clEnqueueNDRangeKernel times globalSize v = Returns v' /\
    length v' = length v /\
    forall (j : nat) d, v !! j = Some d ->
      v' !! j =
      Some (if bool_decide (Z.of_nat j < 2 * globalSize)
            then times (factor j) d else d).
Proof.
  intros Hg Hlen Hmax. exists (scaled_by times (seqZ 0 globalSize) v).
  split; [|split].
  - unfold clEnqueueNDRangeKernel.
    apply run_mult_scaled_by; [apply NoDup_seqZ | apply items_below; assumption].
  - apply length_scaled_by.
  - intros j d Hd. rewrite (lookup_scaled_by _ _ _ _ Hd). f_equal.
    rewrite (bool_decide_ext (Z.of_nat j / 2 ∈ seqZ 0 globalSize)
               (Z.of_nat j < 2 * globalSize)); [reflexivity|].
    rewrite elem_of_seqZ, <- half_below.
    pose proof (Z.div_pos (Z.of_nat j) 2 ltac:(lia) ltac:(lia)). lia.
Qed.

(** X14: the order of the work items does not matter.  When the first
    [2 * globalSize] doubles lie inside the buffer, running the work items
    one after the other in any order of the global ids 0 to
    [globalSize - 1] gives the result of running them in increasing
    order. *)
Theorem dispatch_order_irrelevant order globalSize (v : list D) :
  order ≡ₚ seqZ 0 globalSize ->
  0 <= globalSize -> 2 * globalSize <= Z.of_nat (length v) ->
  2 * globalSize <= INT_MAX + 1 ->
  run_mult times order v = clEnqueueNDRangeKernel times globalSize v.
Proof.
  intros Hperm Hg Hlen Hmax. unfold clEnqueueNDRangeKernel.
  assert (Hsame : forall id, id ∈ order <-> id ∈ seqZ 0 globalSize)
    by (intros id; rewrite Hperm; reflexivity).
  rewrite (run_mult_scaled_by times (seqZ 0 globalSize))
    by (apply NoDup_seqZ || (apply items_below; assumption)).
  rewrite (run_mult_scaled_by times order).
  - f_equal. apply scaled_by_same_items, Hsame.
  - rewrite Hperm. apply NoDup_seqZ.
  - intros id Hid. apply (items_below globalSize v Hg Hlen Hmax), Hsame, Hid.
Qed.

(** X15: the dispatch of [main] fits the padded buffer.  For every
    [N >= 0] and positive group width whose padded length [N_pad] fits an
    [int], the kernel run with the global size [N_pad / 2] on a buffer of
    [N_pad] doubles stays inside the buffer and multiplies every one of its
    doubles, those at even positions by 2 and those at odd positions by
    4. *)
Theorem padded_dispatch_scales_all N groupWidth m :
  0 <= N -> 0 < groupWidth <= INT_MAX ->
  paddedLength_steps N groupWidth <= INT_MAX ->
  exists N_pad,
    paddedLength N groupWidth m = Returns (N_pad, m) /\
    forall v : list D, Z.of_nat (length v) = N_pad ->
      clEnqueueNDRangeKernel times (uint_div N_pad 2) v =
      Returns (scaled times v).
Proof.
  intros HN Hg Hfit. exists (paddedLength_steps N groupWidth).
  split; [apply paddedLength_run; assumption|].
  intros v Hlen. unfold paddedLength_steps in *. cbv zeta in *.
  set (R := round_up ((N + 2) / 2) groupWidth) in *.
  assert (HR : 0 <= R).
  { pose proof (round_up_bounds ((N + 2) / 2) groupWidth ltac:(lia)).
    pose proof (half_positive N HN). unfold R. lia. }
  unfold uint_div. rewrite (Z.mul_comm 2 R), Z.div_mul by lia.
  unfold clEnqueueNDRangeKernel.
  rewrite run_mult_scaled_by
    by (apply NoDup_seqZ || (apply items_below; lia)).
  f_equal. apply list_eq. intros j. unfold scaled_by, scaled.
  rewrite !list_lookup_imap. destruct (v !! j) as [d|] eqn:Hd; [|reflexivity].
  cbn [fmap option_fmap option_map]. f_equal.
  apply lookup_lt_Some in Hd.
  rewrite bool_decide_eq_true_2; [reflexivity|].
  apply elem_of_seqZ. pose proof (half_below j R).
  pose proof (Z.div_pos (Z.of_nat j) 2 ltac:(lia) ltac:(lia)). lia.
Qed.

End KernelProperties.

(** The theorems on the kernel at buffers of integers, with the product of
    integers for the product of doubles. *)

Lemma mult_scales_its_pair_witness :
  (0 <= 1 /\ 2 * 1 + 1 < Z.of_nat (length [10; 20; 30; 40]) /\
   2 * 1 + 1 <= INT_MAX) /\
  exists v',
    mult Z.mul [10; 20; 30; 40] 1 = Returns v' /\
    length v' = length [10; 20; 30; 40] /\
    forall (j : nat) d, [10; 20; 30; 40] !! j = Some d ->
      v' !! j =
      Some (if bool_decide (Z.of_nat j / 2 = 1) then factor j * d else d).
Proof.
  assert (H0 : 0 <= 1) by closed_goal.
  assert (Hlen : 2 * 1 + 1 < Z.of_nat (length [10; 20; 30; 40]))
    by closed_goal.
  assert (Hmax : 2 * 1 + 1 <= INT_MAX) by closed_goal.
  split; [auto|].
  exact (mult_scales_its_pair Z.mul [10; 20; 30; 40] 1 H0 Hlen Hmax).
Defined.

Lemma mult_outside_buffer_witness :
  (0 <= 1 /\ 2 * 1 + 1 <= INT_MAX /\
   Z.of_nat (length [10; 20; 30]) <= 2 * 1 + 1) /\
  mult Z.mul [10; 20; 30] 1 = Undefined OutOfBounds.
Proof.
  assert (H0 : 0 <= 1) by closed_goal.
  assert (Hmax : 2 * 1 + 1 <= INT_MAX) by closed_goal.
  assert (Hlen : Z.of_nat (length [10; 20; 30]) <= 2 * 1 + 1) by closed_goal.
  split; [auto|].
  exact (mult_outside_buffer Z.mul [10; 20; 30] 1 H0 Hmax Hlen).
Defined.

Lemma dispatch_scales_prefix_witness :
  (0 <= 1 /\ 2 * 1 <= Z.of_nat (length [10; 20; 30]) /\
   2 * 1 <= INT_MAX + 1) /\
  exists v',
    clEnqueueNDRangeKernel Z.mul 1 [10; 20; 30] = Returns v' /\
    length v' = length [10; 20; 30] /\
    forall (j : nat) d, [10; 20; 30] !! j = Some d ->
      v' !! j =
      Some (if bool_decide (Z.of_nat j < 2 * 1) then factor j * d else d).
Proof.
  assert (Hg : 0 <= 1) by closed_goal.
  assert (Hlen : 2 * 1 <= Z.of_nat (length [10; 20; 30])) by closed_goal.
  assert (Hmax : 2 * 1 <= INT_MAX + 1) by closed_goal.
  split; [auto|].
  exact (dispatch_scales_prefix Z.mul 1 [10; 20; 30] Hg Hlen Hmax).
Defined.

Lemma dispatch_order_irrelevant_witness :
  ([1; 0] ≡ₚ seqZ 0 2 /\ 0 <= 2 /\
   2 * 2 <= Z.of_nat (length [10; 20; 30; 40]) /\ 2 * 2 <= INT_MAX + 1) /\
  run_mult Z.mul [1; 0] [10; 20; 30; 40] =
  clEnqueueNDRangeKernel Z.mul 2 [10; 20; 30; 40].
Proof.
  assert (Hperm : [1; 0] ≡ₚ seqZ 0 2) by exact (perm_swap 0 1 []).
  assert (Hg : 0 <= 2) by closed_goal.
  assert (Hlen : 2 * 2 <= Z.of_nat (length [10; 20; 30; 40])) by closed_goal.
  assert (Hmax : 2 * 2 <= INT_MAX + 1) by closed_goal.
  split; [auto|].
  exact (dispatch_order_irrelevant Z.mul [1; 0] 2 [10; 20; 30; 40]
           Hperm Hg Hlen Hmax).
Defined.

Lemma padded_dispatch_scales_all_witness :
  (0 <= 128 /\ 0 < 32 <= INT_MAX /\ paddedLength_steps 128 32 <= INT_MAX) /\
  exists N_pad,
    paddedLength 128 32 initial_memory = Returns (N_pad, initial_memory) /\
    forall v : list Z, Z.of_nat (length v) = N_pad ->
      clEnqueueNDRangeKernel Z.mul (uint_div N_pad 2) v =
      Returns (scaled Z.mul v).
Proof.
  assert (HN : 0 <= 128) by closed_goal.
  assert (Hg : 0 < 32 <= INT_MAX) by closed_goal.
  assert (Hfit : paddedLength_steps 128 32 <= INT_MAX) by closed_goal.
  split; [auto|].
  exact (padded_dispatch_scales_all Z.mul 128 32 initial_memory HN Hg Hfit).
Defined.
